(** * Skunk bouncing-ball simulation: physics core

    A shallow embedding of the physics and model layers of the [skunk]
    package ([physics/vector2d.py], [physics/collision.py],
    [physics/forces.py], [model/ball.py], [model/simulation.py],
    [constants.py]) together with the properties its specification states.

    Number model.  Python [float] is IEEE 754 binary64.  The development
    reads the code twice.

    - The modules [Vector2D], [collision], [forces], [Ball], [Simulation]
      and [BallPanel] read each float operation as the exact operation on
      real numbers: [+], [-], [*] are the field operations, [math.hypot x y]
      is [sqrt (x*x + y*y)], [math.pi] is [PI], and [b ** e] for a positive
      base is [Rpower b e].  What this reading keeps from Python is the
      control flow, every comparison and branch, and every place where an
      operation can raise: [/] raises [ZeroDivisionError] on a zero divisor
      and [math.sqrt] raises [ValueError] on a negative argument, so each
      function that divides returns a [result].  The properties stated
      over it speak of branches taken, of what is returned or raised, of
      identities, lists and counters, and of inequalities that rounding
      respects.  Lemmas that equate a computed value with an exact one are
      marked as holding under exact arithmetic: they say what the rounded
      result approximates.

    - The module [B64] is the collision engine and the shockwave impulse
      over the binary64 operations themselves (Rocq's primitive floats).
      It is where statements about the exact value of a result are
      evaluated on concrete inputs, and where the binary64 forms of the
      collision properties are proved.

    Overflow to infinity and NaN inputs are outside the first reading and
    inside the second. *)

From Stdlib Require Import QArith Floats.
From Stdlib Require Import Reals Lra Lia List Bool ZArith.
Close Scope Q_scope.
Close Scope float_scope.
Import ListNotations.
Open Scope R_scope.

(** ** Exceptions and the result monad *)

Inductive exn : Set :=
| ZeroDivisionError
| ValueError
| IndexError.

Inductive result (A : Type) : Type :=
| Ok (a : A)
| Raise (e : exn).

Arguments Ok {A} a.
Arguments Raise {A} e.

Definition bind {A B : Type} (c : result A) (k : A -> result B) : result B :=
  match c with
  | Ok a => k a
  | Raise e => Raise e
  end.

Notation "x <- c ;; k" := (bind c (fun x => k))
  (at level 61, c at next level, right associativity).
Notation "' p <- c ;; k" := (bind c (fun v => let p := v in k))
  (at level 61, p pattern, c at next level, right associativity).

(** ** Float comparisons and the two partial float operations *)

Definition Rltb (a b : R) : bool := if Rlt_dec a b then true else false.
Definition Rleb (a b : R) : bool := if Rle_dec a b then true else false.
Definition Rgtb (a b : R) : bool := if Rgt_dec a b then true else false.
Definition Rgeb (a b : R) : bool := if Rge_dec a b then true else false.
Definition Reqb (a b : R) : bool := if Req_dec_T a b then true else false.

(** [a / b] on floats. *)
Definition float_div (a b : R) : result R :=
  if Reqb b 0 then Raise ZeroDivisionError else Ok (a / b).

(** [math.sqrt a]. *)
Definition math_sqrt (a : R) : result R :=
  if Rltb a 0 then Raise ValueError else Ok (sqrt a).

(** [max(a, b)] of the builtins: the first argument unless the second is
    strictly larger. *)
Definition py_max (a b : R) : R := if Rgtb b a then b else a.

(** ** physics/vector2d.py *)

Module Vector2D.

Record t : Type := mk { x : R; y : R }.

Definition add (self other : t) : t :=
  mk (x self + x other) (y self + y other).

Definition sub (self other : t) : t :=
  mk (x self - x other) (y self - y other).

Definition mul (self : t) (scalar : R) : t :=
  mk (x self * scalar) (y self * scalar).

Definition rmul (self : t) (scalar : R) : t := mul self scalar.

Definition truediv (self : t) (scalar : R) : result t :=
  qx <- float_div (x self) scalar ;;
  qy <- float_div (y self) scalar ;;
  Ok (mk qx qy).

Definition neg (self : t) : t := mk (- x self) (- y self).

Definition magnitude (self : t) : R :=
  sqrt (x self * x self + y self * y self).

Definition magnitude_sq (self : t) : R :=
  x self * x self + y self * y self.

Definition normalized (self : t) : result t :=
  let mag := magnitude self in
  if Reqb mag 0 then Ok (mk 0 0)
  else
    qx <- float_div (x self) mag ;;
    qy <- float_div (y self) mag ;;
    Ok (mk qx qy).

Definition dot (self other : t) : R :=
  x self * x other + y self * y other.

Definition distance_to (self other : t) : R := magnitude (sub self other).

Definition distance_sq_to (self other : t) : R :=
  magnitude_sq (sub self other).

Definition from_angle (angle_rad magnitude : R) : t :=
  mk (cos angle_rad * magnitude) (sin angle_rad * magnitude).

Definition clamped (self : t) (max_magnitude : R) : result t :=
  if Rleb (magnitude_sq self) (max_magnitude * max_magnitude) then Ok self
  else
    n <- normalized self ;;
    Ok (mul n max_magnitude).

End Vector2D.

(** ** constants.py *)

Module constants.

Definition WINDOW_WIDTH : Z := 800.
Definition WINDOW_HEIGHT : Z := 450.
Definition STATUS_BAR_HEIGHT : Z := 30.
Definition PLAY_AREA_HEIGHT : Z := WINDOW_HEIGHT - STATUS_BAR_HEIGHT.

Definition MIN_RADIUS : Z := 12.
Definition MAX_RADIUS : Z := 30.
Definition MIN_SPEED : R := 0.5.
Definition MAX_SPEED : R := 3.0.

Definition MASS_DENSITY : R := 1.0.

Definition SURFACE_FRICTION : R := 0.9999.
Definition GRAVITY_ACCEL : R := 0.15.
Definition BOUNCE_RESTITUTION : R := 0.85.
Definition FLOOR_FRICTION : R := 0.99.
Definition AIR_RESISTANCE : R := 0.9995.
Definition LEFT_WALL_BOOST : R := 1.12.
Definition MAX_SPEED_CAP : R := 5.0.
Definition SHOCKWAVE_STRENGTH : R := 800.0.
Definition SHOCKWAVE_RADIUS : R := 400.0.

Definition COLOR_BALL_LEFT : Z * Z * Z := (75, 46, 131)%Z.

End constants.

(** ** physics/collision.py *)

Module collision.
Import Vector2D.

Definition detect_collision
    (pos_a : Vector2D.t) (radius_a : R)
    (pos_b : Vector2D.t) (radius_b : R) : bool :=
  let min_dist := radius_a + radius_b in
  Rltb (distance_sq_to pos_a pos_b) (min_dist * min_dist).

Definition resolve_collision
    (pos_a vel_a : Vector2D.t) (mass_a radius_a : R)
    (pos_b vel_b : Vector2D.t) (mass_b radius_b : R)
  : result (Vector2D.t * Vector2D.t * Vector2D.t * Vector2D.t) :=
  let normal := sub pos_a pos_b in
  let dist := magnitude normal in
  let '(normal, dist) :=
    if Reqb dist 0 then (mk 1.0 0.0, 1.0) else (normal, dist) in
  n <- normalized normal ;;
  let rel_vel := sub vel_a vel_b in
  let vel_along_normal := dot rel_vel n in
  if Rgtb vel_along_normal 0 then
    let overlap := (radius_a + radius_b) - dist in
    if Rgtb overlap 0 then
      half <- float_div overlap 2 ;;
      let correction := mul n (half + 0.5) in
      Ok (vel_a, vel_b, add pos_a correction, sub pos_b correction)
    else
      Ok (vel_a, vel_b, pos_a, pos_b)
  else
    let total_mass := mass_a + mass_b in
    impulse <- float_div (2 * vel_along_normal) total_mass ;;
    let new_vel_a := sub vel_a (mul n (impulse * mass_b)) in
    let new_vel_b := add vel_b (mul n (impulse * mass_a)) in
    let overlap := (radius_a + radius_b) - dist in
    if Rgtb overlap 0 then
      half <- float_div overlap 2 ;;
      let correction := mul n (half + 0.5) in
      Ok (new_vel_a, new_vel_b, add pos_a correction, sub pos_b correction)
    else
      Ok (new_vel_a, new_vel_b, pos_a, pos_b).

End collision.

(** ** physics/forces.py *)

Module forces.
Import Vector2D constants.

Definition apply_surface_friction
    (velocity : Vector2D.t) (mass : R) : result Vector2D.t :=
  root <- math_sqrt mass ;;
  let factor := Rpower SURFACE_FRICTION root in
  Ok (mul velocity factor).

Definition apply_gravity (velocity : Vector2D.t) : Vector2D.t :=
  add velocity (mk 0.0 GRAVITY_ACCEL).

Definition apply_air_resistance (velocity : Vector2D.t) : Vector2D.t :=
  mul velocity AIR_RESISTANCE.

Definition apply_floor_friction (velocity : Vector2D.t) : Vector2D.t :=
  mk (x velocity * FLOOR_FRICTION) (y velocity).

Definition apply_bounce_restitution (velocity : Vector2D.t) : Vector2D.t :=
  mk (x velocity) (y velocity * BOUNCE_RESTITUTION).

Definition compute_wall_boost (velocity : Vector2D.t) : result Vector2D.t :=
  if Rgeb (magnitude velocity) MAX_SPEED_CAP then
    clamped velocity MAX_SPEED_CAP
  else
    let boosted := mk (x velocity * LEFT_WALL_BOOST) (y velocity) in
    clamped boosted MAX_SPEED_CAP.

Definition compute_shockwave_impulse
    (ball_pos shockwave_origin : Vector2D.t) : result Vector2D.t :=
  let delta := sub ball_pos shockwave_origin in
  let dist := magnitude delta in
  if Rgtb dist SHOCKWAVE_RADIUS then Ok (mk 0.0 0.0)
  else
    let safe_dist := py_max dist 1.0 in
    strength <- float_div SHOCKWAVE_STRENGTH safe_dist ;;
    n <- normalized delta ;;
    Ok (mul n strength).

End forces.

(** ** The interpreter state the model layer draws on

    [random.random()] is read off a fixed sequence of samples, one per call;
    [random.uniform a b] is [a + (b - a) * random()].  Objects without an
    [__eq__] compare by identity, so each allocated [Ball] carries the
    identity the allocator gave it. *)

Module runtime.

Record t : Type := mk { samples : nat -> R; cursor : nat; next_oid : nat }.

Definition random (rt : t) : R * t :=
  (samples rt (cursor rt), mk (samples rt) (S (cursor rt)) (next_oid rt)).

Definition uniform (a b : R) (rt : t) : R * t :=
  let '(u, rt') := random rt in (a + (b - a) * u, rt').

Definition alloc (rt : t) : nat * t :=
  (next_oid rt, mk (samples rt) (cursor rt) (S (next_oid rt))).

End runtime.

(** ** model/ball.py *)

Module Ball.
Import constants.

Definition rgb : Type := (Z * Z * Z)%type.

Record t : Type := mk {
  oid : nat;
  position : Vector2D.t;
  velocity : Vector2D.t;
  radius : R;
  mass : R;
  color : rgb
}.

Definition set_position (self : t) (p : Vector2D.t) : t :=
  mk (oid self) p (velocity self) (radius self) (mass self) (color self).

Definition set_velocity (self : t) (v : Vector2D.t) : t :=
  mk (oid self) (position self) v (radius self) (mass self) (color self).

(** [Ball.__init__]: allocates the object and derives the mass. *)
Definition init (position velocity : Vector2D.t) (radius : R) (color : rgb)
    (rt : runtime.t) : t * runtime.t :=
  let '(id, rt') := runtime.alloc rt in
  (mk id position velocity radius
      (MASS_DENSITY * PI * radius * radius) color, rt').

Definition speed (self : t) : R := Vector2D.magnitude (velocity self).

Definition kinetic_energy (self : t) : R :=
  0.5 * mass self * Vector2D.magnitude_sq (velocity self).

Definition momentum (self : t) : Vector2D.t :=
  Vector2D.mul (velocity self) (mass self).

Definition update_position (self : t) : t :=
  set_position self (Vector2D.add (position self) (velocity self)).

Definition apply_impulse (self : t) (impulse : Vector2D.t) : t :=
  set_velocity self (Vector2D.add (velocity self) impulse).

Definition clamp_speed (self : t) (max_speed : R) : result t :=
  v <- Vector2D.clamped (velocity self) max_speed ;;
  Ok (set_velocity self v).

Definition handle_wall_bounce (self : t) (width height : Z) : t * bool :=
  let px := Vector2D.x (position self) in
  let py := Vector2D.y (position self) in
  let vx := Vector2D.x (velocity self) in
  let vy := Vector2D.y (velocity self) in
  let '(vx, px, hit_left) :=
    if Rleb (px - radius self) 0 && Rltb vx 0 then
      (- vx, radius self, true)
    else if Rgeb (px + radius self) (IZR width) && Rgtb vx 0 then
      (- vx, IZR width - radius self, false)
    else (vx, px, false) in
  let '(vy, py) :=
    if Rleb (py - radius self) 0 && Rltb vy 0 then
      (- vy, radius self)
    else if Rgeb (py + radius self) (IZR height) && Rgtb vy 0 then
      (- vy, IZR height - radius self)
    else (vy, py) in
  (set_velocity (set_position self (Vector2D.mk px py)) (Vector2D.mk vx vy),
   hit_left).

Definition handle_wall_bounce_gravity (self : t) (width height : Z)
  : t * (bool * bool) :=
  let px := Vector2D.x (position self) in
  let py := Vector2D.y (position self) in
  let vx := Vector2D.x (velocity self) in
  let vy := Vector2D.y (velocity self) in
  let '(vx, px, hit_left) :=
    if Rleb (px - radius self) 0 && Rltb vx 0 then
      (- vx, radius self, true)
    else if Rgeb (px + radius self) (IZR width) && Rgtb vx 0 then
      (- vx, IZR width - radius self, false)
    else (vx, px, false) in
  let '(vy, py, hit_floor) :=
    if Rleb (py - radius self) 0 && Rltb vy 0 then
      (- vy, radius self, false)
    else if Rgeb (py + radius self) (IZR height) && Rgtb vy 0 then
      (- vy, IZR height - radius self, true)
    else (vy, py, false) in
  (set_velocity (set_position self (Vector2D.mk px py)) (Vector2D.mk vx vy),
   (hit_left, hit_floor)).

Definition is_on_floor (self : t) : bool :=
  Rgeb (Vector2D.y (position self) + radius self)
       (IZR PLAY_AREA_HEIGHT - 1).

(** [Ball.create_random]; [velocity = None] asks for a random one. *)
Definition create_random
    (position : Vector2D.t) (color : rgb) (velocity : option Vector2D.t)
    (rt : runtime.t) : t * runtime.t :=
  let '(radius, rt) :=
    runtime.uniform (IZR MIN_RADIUS) (IZR MAX_RADIUS) rt in
  let '(velocity, rt) :=
    match velocity with
    | Some v => (v, rt)
    | None =>
        let '(angle, rt) := runtime.uniform 0 (2 * PI) rt in
        let '(speed, rt) := runtime.uniform MIN_SPEED MAX_SPEED rt in
        (Vector2D.from_angle angle speed, rt)
    end in
  init position velocity radius color rt.

End Ball.

(** ** model/simulation.py *)

(** [for x in xs: body], where the body may raise. *)
Fixpoint for_each {A S : Type}
    (xs : list A) (body : A -> S -> result S) (s : S) : result S :=
  match xs with
  | [] => Ok s
  | x :: rest => s' <- body x s ;; for_each rest body s'
  end.

(** [range(lo, hi)]. *)
Definition py_range (lo hi : nat) : list nat := seq lo (hi - lo).

(** [l[i]]: raises [IndexError] past the end. *)
Definition list_get {A : Type} (l : list A) (i : nat) : result A :=
  match nth_error l i with
  | Some a => Ok a
  | None => Raise IndexError
  end.

(** Writing the attributes of the object stored at index [i]. *)
Fixpoint list_put {A : Type} (l : list A) (i : nat) (a : A) : list A :=
  match l, i with
  | [], _ => []
  | _ :: rest, O => a :: rest
  | b :: rest, S i' => b :: list_put rest i' a
  end.

Module Simulation.
Import constants.

Record effect : Type := mk_effect { origin : Vector2D.t; age : Z }.

Definition snapshot : Type :=
  (Vector2D.t * Vector2D.t * R * Ball.rgb)%type.

Record t : Type := mk {
  balls : list Ball.t;
  gravity_on : bool;
  paused : bool;
  wall_glow_timer : R;
  shockwave_effects : list effect;
  _initial_balls : list snapshot
}.

Definition WALL_GLOW_DURATION : Z := 30.
Definition SHOCKWAVE_VISUAL_DURATION : Z := 20.

(** [Simulation.__init__]. *)
Definition init : t := mk [] false false 0.0 [] [].

(** One of the two overlap loops of [spawn_ball]: [true] when the loop
    leaves through its [return None]. *)
Fixpoint overlaps_existing
    (position : Vector2D.t) (r : R) (bs : list Ball.t) : bool :=
  match bs with
  | [] => false
  | b :: rest =>
      if Rltb (Vector2D.distance_to position (Ball.position b))
              (r + Ball.radius b)
      then true
      else overlaps_existing position r rest
  end.

Definition _save_initial_state (self : t) (ball : Ball.t) : t :=
  mk (balls self) (gravity_on self) (paused self) (wall_glow_timer self)
     (shockwave_effects self)
     (_initial_balls self ++
        [(Ball.position ball, Ball.velocity ball, Ball.radius ball,
          Ball.color ball)]).

Definition spawn_ball
    (self : t) (position : Vector2D.t) (color : Ball.rgb)
    (velocity : option Vector2D.t) (rt : runtime.t)
  : result (option Ball.t * t * runtime.t) :=
  test_radius <- float_div (IZR (MIN_RADIUS + MAX_RADIUS)) 2 ;;
  if overlaps_existing position test_radius (balls self) then
    Ok (None, self, rt)
  else
    let '(ball, rt) := Ball.create_random position color velocity rt in
    if overlaps_existing position (Ball.radius ball) (balls self) then
      Ok (None, self, rt)
    else
      let self :=
        mk (balls self ++ [ball]) (gravity_on self) (paused self)
           (wall_glow_timer self) (shockwave_effects self)
           (_initial_balls self) in
      Ok (Some ball, _save_initial_state self ball, rt).

(** [list.remove]: drops the first element equal to [ball]. *)
Fixpoint list_remove (bs : list Ball.t) (ball : Ball.t) : list Ball.t :=
  match bs with
  | [] => []
  | b :: rest =>
      if Nat.eqb (Ball.oid b) (Ball.oid ball) then rest
      else b :: list_remove rest ball
  end.

Definition remove_ball (self : t) (ball : Ball.t) : t :=
  if existsb (fun b => Nat.eqb (Ball.oid b) (Ball.oid ball)) (balls self)
  then
    mk (list_remove (balls self) ball) (gravity_on self) (paused self)
       (wall_glow_timer self) (shockwave_effects self) (_initial_balls self)
  else self.

Definition reset (self : t) : t := mk [] false false 0.0 [] [].

(** Body of the first loop of [update]: forces, integration, walls, boost
    and clamp for one ball; the glow timer is the only simulation field it
    writes. *)
Definition update_ball (gravity_on : bool) (ball : Ball.t) (timer : R)
  : result (Ball.t * R) :=
  ball <-
    (if gravity_on then
       let ball :=
         Ball.set_velocity ball (forces.apply_gravity (Ball.velocity ball)) in
       Ok (Ball.set_velocity ball
             (forces.apply_air_resistance (Ball.velocity ball)))
     else
       v <- forces.apply_surface_friction (Ball.velocity ball)
              (Ball.mass ball) ;;
       Ok (Ball.set_velocity ball v)) ;;
  let ball := Ball.update_position ball in
  let '(ball, hit_left) :=
    if gravity_on then
      let '(ball, (hit_left, hit_floor)) :=
        Ball.handle_wall_bounce_gravity ball WINDOW_WIDTH PLAY_AREA_HEIGHT in
      if hit_floor then
        let ball :=
          Ball.set_velocity ball
            (forces.apply_bounce_restitution (Ball.velocity ball)) in
        (Ball.set_velocity ball
           (forces.apply_floor_friction (Ball.velocity ball)), hit_left)
      else (ball, hit_left)
    else Ball.handle_wall_bounce ball WINDOW_WIDTH PLAY_AREA_HEIGHT in
  '(ball, timer) <-
    (if hit_left then
       v <- forces.compute_wall_boost (Ball.velocity ball) ;;
       Ok (Ball.set_velocity ball v, IZR WALL_GLOW_DURATION)
     else Ok (ball, timer)) ;;
  ball <- Ball.clamp_speed ball MAX_SPEED_CAP ;;
  Ok (ball, timer).

(** The first loop of [update]. *)
Fixpoint update_balls (gravity_on : bool) (bs : list Ball.t) (timer : R)
  : result (list Ball.t * R) :=
  match bs with
  | [] => Ok ([], timer)
  | ball :: rest =>
      '(ball', timer') <- update_ball gravity_on ball timer ;;
      '(rest', timer'') <- update_balls gravity_on rest timer' ;;
      Ok (ball' :: rest', timer'')
  end.

(** Body of the pairwise loop for the pair [(i, j)]. *)
Definition collide_pair (i j : nat) (bs : list Ball.t)
  : result (list Ball.t) :=
  a <- list_get bs i ;;
  b <- list_get bs j ;;
  if collision.detect_collision
       (Ball.position a) (Ball.radius a) (Ball.position b) (Ball.radius b)
  then
    '(va, vb, pa, pb) <-
      collision.resolve_collision
        (Ball.position a) (Ball.velocity a) (Ball.mass a) (Ball.radius a)
        (Ball.position b) (Ball.velocity b) (Ball.mass b) (Ball.radius b) ;;
    let a := Ball.set_position (Ball.set_velocity a va) pa in
    let b := Ball.set_position (Ball.set_velocity b vb) pb in
    Ok (list_put (list_put bs i a) j b)
  else Ok bs.

Definition pairwise_collisions (bs : list Ball.t) : result (list Ball.t) :=
  let n := length bs in
  for_each (py_range 0 n)
    (fun i bs => for_each (py_range (i + 1) n) (collide_pair i) bs) bs.

(** The ageing loop at the end of [update]. *)
Fixpoint age_effects (effects : list effect) : list effect :=
  match effects with
  | [] => []
  | e :: rest =>
      let e := mk_effect (origin e) (age e + 1) in
      if (age e <? SHOCKWAVE_VISUAL_DURATION)%Z
      then e :: age_effects rest
      else age_effects rest
  end.

Definition update (self : t) : result t :=
  if paused self then Ok self
  else
    '(bs, timer) <-
      update_balls (gravity_on self) (balls self) (wall_glow_timer self) ;;
    bs <- pairwise_collisions bs ;;
    let timer := if Rgtb timer 0 then timer - 1 else timer in
    Ok (mk bs (gravity_on self) (paused self) timer
           (age_effects (shockwave_effects self)) (_initial_balls self)).

(** The loop of [apply_shockwave]. *)
Fixpoint shock_balls (origin : Vector2D.t) (bs : list Ball.t)
  : result (list Ball.t) :=
  match bs with
  | [] => Ok []
  | ball :: rest =>
      impulse <- forces.compute_shockwave_impulse (Ball.position ball) origin ;;
      ball <- Ball.clamp_speed (Ball.apply_impulse ball impulse)
                MAX_SPEED_CAP ;;
      rest <- shock_balls origin rest ;;
      Ok (ball :: rest)
  end.

Definition apply_shockwave (self : t) (origin : Vector2D.t) : result t :=
  bs <- shock_balls origin (balls self) ;;
  Ok (mk bs (gravity_on self) (paused self) (wall_glow_timer self)
         (shockwave_effects self ++ [mk_effect origin 0])
         (_initial_balls self)).

Definition toggle_gravity (self : t) : t :=
  mk (balls self) (negb (gravity_on self)) (paused self)
     (wall_glow_timer self) (shockwave_effects self) (_initial_balls self).

Definition toggle_pause (self : t) : t :=
  mk (balls self) (gravity_on self) (negb (paused self))
     (wall_glow_timer self) (shockwave_effects self) (_initial_balls self).

Definition total_energy (self : t) : R :=
  fold_left (fun acc b => acc + Ball.kinetic_energy b) (balls self) 0.

Fixpoint ball_at_list (pos : Vector2D.t) (bs : list Ball.t)
  : option Ball.t :=
  match bs with
  | [] => None
  | ball :: rest =>
      if Rleb (Vector2D.distance_to pos (Ball.position ball))
              (Ball.radius ball)
      then Some ball
      else ball_at_list pos rest
  end.

Definition ball_at (self : t) (pos : Vector2D.t) : option Ball.t :=
  ball_at_list pos (balls self).

End Simulation.


(** ** gui/panel.py: the two velocity setters of [BallPanel]

    The panel's drawing and event handling are pygame calls; the two
    helpers below only compute on the selected ball. *)

Module BallPanel.

(** [math.radians]. *)
Definition math_radians (degrees : R) : R := degrees * (PI / 180).

Definition _set_ball_speed (ball : Ball.t) (speed : R) : result Ball.t :=
  direction <- Vector2D.normalized (Ball.velocity ball) ;;
  let direction :=
    if Reqb (Vector2D.magnitude direction) 0 then Vector2D.mk 1.0 0.0
    else direction in
  Ok (Ball.set_velocity ball (Vector2D.mul direction speed)).

Definition _set_ball_angle (ball : Ball.t) (degrees : R) : Ball.t :=
  let rad := math_radians degrees in
  let speed := Ball.speed ball in
  let speed := if Reqb speed 0 then 0.5 else speed in
  Ball.set_velocity ball (Vector2D.from_angle rad speed).

End BallPanel.

(** * The program on binary64

    The modules above read every float operation as the exact operation on
    real numbers.  [B64] is the same code with the operations of IEEE 754
    binary64, as Python's [float] has them: each [+], [-], [*], [/] and
    [sqrt] is rounded to nearest, comparisons are the IEEE ones, and [/]
    raises on a zero divisor of either sign.  It is executable, and it is
    where a statement about exact values of results is tested. *)

Module B64.

Local Open Scope float_scope.

(** [a / b] on floats. *)
Definition float_div (a b : float) : result float :=
  if b =? 0 then Raise ZeroDivisionError else Ok (a / b).

(** [math.hypot x y].  It is exact when an argument is zero; elsewhere the
    library's result lies within one unit in the last place of the true
    value and is taken here as the rounded root of the rounded sum of
    squares.  Every evaluation on concrete inputs below has an argument
    that is zero, and the properties proved for all inputs use of it only
    that [math_hypot 1 0] is [1]. *)
Definition math_hypot (x y : float) : float :=
  if y =? 0 then PrimFloat.abs x
  else if x =? 0 then PrimFloat.abs y
  else PrimFloat.sqrt (x * x + y * y).

(** [max(a, b)] of the builtins. *)
Definition py_max (a b : float) : float := if a <? b then b else a.

Record vec : Type := mk { x : float; y : float }.

Definition add (self other : vec) : vec :=
  mk (x self + x other) (y self + y other).

Definition sub (self other : vec) : vec :=
  mk (x self - x other) (y self - y other).

Definition mul (self : vec) (scalar : float) : vec :=
  mk (x self * scalar) (y self * scalar).

Definition magnitude (self : vec) : float := math_hypot (x self) (y self).

Definition magnitude_sq (self : vec) : float :=
  x self * x self + y self * y self.

Definition normalized (self : vec) : result vec :=
  let mag := magnitude self in
  if mag =? 0 then Ok (mk 0 0)
  else
    qx <- float_div (x self) mag ;;
    qy <- float_div (y self) mag ;;
    Ok (mk qx qy).

Definition dot (self other : vec) : float :=
  x self * x other + y self * y other.

Definition distance_to (self other : vec) : float :=
  magnitude (sub self other).

Definition distance_sq_to (self other : vec) : float :=
  magnitude_sq (sub self other).

Definition SHOCKWAVE_STRENGTH : float := 800.
Definition SHOCKWAVE_RADIUS : float := 400.

(** [collision.detect_collision]. *)
Definition detect_collision
    (pos_a : vec) (radius_a : float) (pos_b : vec) (radius_b : float) : bool :=
  let min_dist := radius_a + radius_b in
  distance_sq_to pos_a pos_b <? min_dist * min_dist.

(** [collision.resolve_collision]. *)
Definition resolve_collision
    (pos_a vel_a : vec) (mass_a radius_a : float)
    (pos_b vel_b : vec) (mass_b radius_b : float)
  : result (vec * vec * vec * vec) :=
  let normal := sub pos_a pos_b in
  let dist := magnitude normal in
  let '(normal, dist) :=
    if dist =? 0 then (mk 1 0, 1) else (normal, dist) in
  n <- normalized normal ;;
  let rel_vel := sub vel_a vel_b in
  let vel_along_normal := dot rel_vel n in
  if 0 <? vel_along_normal then
    let overlap := (radius_a + radius_b) - dist in
    if 0 <? overlap then
      half <- float_div overlap 2 ;;
      let correction := mul n (half + 0.5) in
      Ok (vel_a, vel_b, add pos_a correction, sub pos_b correction)
    else
      Ok (vel_a, vel_b, pos_a, pos_b)
  else
    let total_mass := mass_a + mass_b in
    impulse <- float_div (2 * vel_along_normal) total_mass ;;
    let new_vel_a := sub vel_a (mul n (impulse * mass_b)) in
    let new_vel_b := add vel_b (mul n (impulse * mass_a)) in
    let overlap := (radius_a + radius_b) - dist in
    if 0 <? overlap then
      half <- float_div overlap 2 ;;
      let correction := mul n (half + 0.5) in
      Ok (new_vel_a, new_vel_b, add pos_a correction, sub pos_b correction)
    else
      Ok (new_vel_a, new_vel_b, pos_a, pos_b).

(** [forces.compute_shockwave_impulse]. *)
Definition compute_shockwave_impulse
    (ball_pos shockwave_origin : vec) : result vec :=
  let delta := sub ball_pos shockwave_origin in
  let dist := magnitude delta in
  if SHOCKWAVE_RADIUS <? dist then Ok (mk 0 0)
  else
    let safe_dist := py_max dist 1 in
    strength <- float_div SHOCKWAVE_STRENGTH safe_dist ;;
    n <- normalized delta ;;
    Ok (mul n strength).

(** The distance, the axis and the unit normal [resolve_collision] works
    with, and its [vel_along_normal]. *)
Definition contact_dist (pos_a pos_b : vec) : float :=
  let dist := magnitude (sub pos_a pos_b) in
  if dist =? 0 then 1 else dist.

Definition contact_axis (pos_a pos_b : vec) : vec :=
  if magnitude (sub pos_a pos_b) =? 0 then mk 1 0 else sub pos_a pos_b.

(** What [normalized] returns. *)
Definition direction (v : vec) : vec :=
  let mag := magnitude v in
  if mag =? 0 then mk 0 0 else mk (x v / mag) (y v / mag).

Definition unit_normal (pos_a pos_b : vec) : vec :=
  direction (contact_axis pos_a pos_b).

Definition vel_along_normal (pos_a vel_a pos_b vel_b : vec) : float :=
  dot (sub vel_a vel_b) (unit_normal pos_a pos_b).

(** The rational number a finite float stands for. *)
Definition exact (f : float) : Q :=
  match Prim2SF f with
  | S754_finite s m e =>
      let z := if s then Z.neg m else Z.pos m in
      if (0 <=? e)%Z then inject_Z (z * 2 ^ e)
      else Qmake z (Z.to_pos (2 ^ (- e)))
  | _ => 0%Q
  end.

End B64.

(** * Quantities the statements talk about *)

Section Statements.
Import Vector2D.

(** The separation axis of [resolve_collision] (its lines up to the
    fallback): the difference of the centres, or the fixed axis [(1, 0)]
    when the centres coincide. *)
Definition contact_axis (pos_a pos_b : Vector2D.t) : Vector2D.t :=
  if Reqb (magnitude (sub pos_a pos_b)) 0 then mk 1.0 0.0
  else sub pos_a pos_b.

(** The distance [resolve_collision] works with: the distance of the
    centres, or [1.0] when they coincide. *)
Definition contact_dist (pos_a pos_b : Vector2D.t) : R :=
  if Reqb (magnitude (sub pos_a pos_b)) 0 then 1.0
  else magnitude (sub pos_a pos_b).

(** The unit normal [n] from B to A. *)
Definition unit_normal (pos_a pos_b : Vector2D.t) : Vector2D.t :=
  let a := contact_axis pos_a pos_b in
  mk (x a / magnitude a) (y a / magnitude a).

(** [vel_along_normal] of [resolve_collision]. *)
Definition vel_along_normal (pos_a vel_a pos_b vel_b : Vector2D.t) : R :=
  dot (sub vel_a vel_b) (unit_normal pos_a pos_b).

End Statements.


Section SimulationStatements.
Import constants.

(** [n] calls of [update] in a row. *)
Fixpoint update_times (n : nat) (self : Simulation.t) : result Simulation.t :=
  match n with
  | O => Ok self
  | S k => s <- Simulation.update self ;; update_times k s
  end.

(** The velocity a ball has after the force step of [update]. *)
Definition forced_velocity (gravity_on : bool) (ball : Ball.t)
  : result Vector2D.t :=
  if gravity_on then
    Ok (forces.apply_air_resistance
          (forces.apply_gravity (Ball.velocity ball)))
  else forces.apply_surface_friction (Ball.velocity ball) (Ball.mass ball).

(** The [hit_left] flag [update] obtains for a ball in this frame. *)
Definition hits_left_wall (gravity_on : bool) (ball : Ball.t) : bool :=
  match forced_velocity gravity_on ball with
  | Ok v =>
      let ball := Ball.update_position (Ball.set_velocity ball v) in
      if gravity_on then
        fst (snd (Ball.handle_wall_bounce_gravity
                    ball WINDOW_WIDTH PLAY_AREA_HEIGHT))
      else snd (Ball.handle_wall_bounce ball WINDOW_WIDTH PLAY_AREA_HEIGHT)
  | Raise _ => false
  end.

(** [random.random()] returns values in [[0, 1)]. *)
Definition fair_samples (rt : runtime.t) : Prop :=
  forall n, 0 <= runtime.samples rt n < 1.

(** States reached from a fresh [Simulation()] through its public
    operations, each of which has returned normally. *)
Inductive reachable : Simulation.t -> runtime.t -> Prop :=
| reach_init rt :
    fair_samples rt -> reachable Simulation.init rt
| reach_spawn s rt position color velocity ball s' rt' :
    reachable s rt ->
    Simulation.spawn_ball s position color velocity rt = Ok (ball, s', rt') ->
    reachable s' rt'
| reach_update s rt s' :
    reachable s rt -> Simulation.update s = Ok s' -> reachable s' rt
| reach_remove s rt ball :
    reachable s rt -> reachable (Simulation.remove_ball s ball) rt
| reach_reset s rt :
    reachable s rt -> reachable (Simulation.reset s) rt
| reach_shockwave s rt origin s' :
    reachable s rt -> Simulation.apply_shockwave s origin = Ok s' ->
    reachable s' rt
| reach_toggle_gravity s rt :
    reachable s rt -> reachable (Simulation.toggle_gravity s) rt
| reach_toggle_pause s rt :
    reachable s rt -> reachable (Simulation.toggle_pause s) rt.

(** What holds of every reachable state: masses are positive and the glow
    timer is a whole number of frames between [0] and the full duration. *)
Definition positive_masses (bs : list Ball.t) : Prop :=
  Forall (fun b => 0 < Ball.mass b) bs.

Definition whole_timer (timer : R) : Prop :=
  exists k : Z,
    (0 <= k <= Simulation.WALL_GLOW_DURATION)%Z /\ timer = IZR k.

End SimulationStatements.

Section ExtraStatements.
Import constants.

(** What [update] and [apply_shockwave] never write: identity, radius,
    mass and colour of a ball. *)
Definition body (b : Ball.t) : nat * R * R * Ball.rgb :=
  (Ball.oid b, Ball.radius b, Ball.mass b, Ball.color b).

(** A ball as [create_random] makes it: radius in the configured range and
    mass derived from it. *)
Definition well_formed_ball (b : Ball.t) : Prop :=
  IZR MIN_RADIUS <= Ball.radius b < IZR MAX_RADIUS /\
  Ball.mass b = MASS_DENSITY * PI * Ball.radius b * Ball.radius b.

(** A shockwave visual that is still shown. *)
Definition live_effect (e : Simulation.effect) : Prop :=
  (0 <= Simulation.age e < Simulation.SHOCKWAVE_VISUAL_DURATION)%Z.

(** [pos] lies inside the ball, as [ball_at] tests it. *)
Definition contains (pos : Vector2D.t) (ball : Ball.t) : Prop :=
  Vector2D.distance_to pos (Ball.position ball) <= Ball.radius ball.

(** Sum of [ball.kinetic_energy] over a collection, as [total_energy]
    computes it. *)
Definition total_kinetic_energy (bs : list Ball.t) : R :=
  fold_left (fun acc b => acc + Ball.kinetic_energy b) bs 0.

(** The effects that are left of [effects] after [n] unpaused frames:
    those not yet [SHOCKWAVE_VISUAL_DURATION] old, each [n] frames older. *)
Definition aged_by (n : Z) (effects : list Simulation.effect)
  : list Simulation.effect :=
  map (fun e => Simulation.mk_effect (Simulation.origin e)
                  (Simulation.age e + n))
      (filter (fun e => (Simulation.age e + n
                         <? Simulation.SHOCKWAVE_VISUAL_DURATION)%Z)
              effects).

(** A sample source used in examples: every sample is [0]. *)
Definition demo_runtime : runtime.t := runtime.mk (fun _ => 0) 0 0.

(** The ball the first [spawn_ball] of an example creates: with every
    sample [0] the radius drawn is [MIN_RADIUS]. *)
Definition demo_ball (position velocity : Vector2D.t) : Ball.t :=
  fst (Ball.create_random position COLOR_BALL_LEFT (Some velocity)
         demo_runtime).

(** The sample source after that first [spawn_ball]. *)
Definition demo_runtime_next : runtime.t := runtime.mk (fun _ => 0) 1 1.

(** The simulation after that first [spawn_ball]. *)
Definition demo_state (position velocity : Vector2D.t) : Simulation.t :=
  Simulation.mk [demo_ball position velocity] false false 0.0 []
    [(position, velocity, Ball.radius (demo_ball position velocity),
      COLOR_BALL_LEFT)].

End ExtraStatements.

(** * Basic facts *)

Section Comparisons.

Lemma Rltb_true a b : Rltb a b = true <-> a < b.
Proof. unfold Rltb; destruct (Rlt_dec a b); split; intros; auto; discriminate. Qed.

Lemma Rltb_false a b : Rltb a b = false <-> ~ a < b.
Proof. unfold Rltb; destruct (Rlt_dec a b); split; intros; auto; try discriminate; contradiction. Qed.

Lemma Rleb_true a b : Rleb a b = true <-> a <= b.
Proof. unfold Rleb; destruct (Rle_dec a b); split; intros; auto; discriminate. Qed.

Lemma Rleb_false a b : Rleb a b = false <-> ~ a <= b.
Proof. unfold Rleb; destruct (Rle_dec a b); split; intros; auto; try discriminate; contradiction. Qed.

Lemma Rgtb_true a b : Rgtb a b = true <-> a > b.
Proof. unfold Rgtb; destruct (Rgt_dec a b); split; intros; auto; discriminate. Qed.

Lemma Rgtb_false a b : Rgtb a b = false <-> ~ a > b.
Proof. unfold Rgtb; destruct (Rgt_dec a b); split; intros; auto; try discriminate; contradiction. Qed.

Lemma Rgeb_true a b : Rgeb a b = true <-> a >= b.
Proof. unfold Rgeb; destruct (Rge_dec a b); split; intros; auto; discriminate. Qed.

Lemma Rgeb_false a b : Rgeb a b = false <-> ~ a >= b.
Proof. unfold Rgeb; destruct (Rge_dec a b); split; intros; auto; try discriminate; contradiction. Qed.

Lemma Reqb_true a b : Reqb a b = true <-> a = b.
Proof. unfold Reqb; destruct (Req_dec_T a b); split; intros; auto; discriminate. Qed.

Lemma Reqb_false a b : Reqb a b = false <-> a <> b.
Proof. unfold Reqb; destruct (Req_dec_T a b); split; intros; auto; try discriminate; contradiction. Qed.

Lemma float_div_ok a b : b <> 0 -> float_div a b = Ok (a / b).
Proof. intros H; unfold float_div; apply Reqb_false in H; now rewrite H. Qed.

Lemma float_div_zero a : float_div a 0 = Raise ZeroDivisionError.
Proof. unfold float_div; now rewrite (proj2 (Reqb_true 0 0) eq_refl). Qed.

Lemma math_sqrt_ok a : 0 <= a -> math_sqrt a = Ok (sqrt a).
Proof.
  intros H; unfold math_sqrt.
  assert (E : Rltb a 0 = false) by (apply Rltb_false; lra).
  now rewrite E.
Qed.

Lemma sqrt_of_square a r : 0 <= r -> a = r * r -> sqrt a = r.
Proof. intros Hr ->; now apply sqrt_square. Qed.

End Comparisons.

(** Settles a comparison between closed expressions. *)
Ltac rcmp :=
  repeat first
    [ rewrite (proj2 (Rltb_true _ _)) by lra
    | rewrite (proj2 (Rltb_false _ _)) by lra
    | rewrite (proj2 (Rleb_true _ _)) by lra
    | rewrite (proj2 (Rleb_false _ _)) by lra
    | rewrite (proj2 (Rgtb_true _ _)) by lra
    | rewrite (proj2 (Rgtb_false _ _)) by lra
    | rewrite (proj2 (Rgeb_true _ _)) by lra
    | rewrite (proj2 (Rgeb_false _ _)) by lra
    | rewrite (proj2 (Reqb_true _ _)) by lra
    | rewrite (proj2 (Reqb_false _ _)) by lra ].

Section VectorFacts.
Import Vector2D.

Lemma vec_eq (u v : Vector2D.t) : x u = x v -> y u = y v -> u = v.
Proof. destruct u, v; simpl; intros -> ->; reflexivity. Qed.

Lemma magnitude_sq_nonneg v : 0 <= magnitude_sq v.
Proof. unfold magnitude_sq; nra. Qed.

Lemma magnitude_nonneg v : 0 <= magnitude v.
Proof. apply sqrt_pos. Qed.

Lemma magnitude_square v : magnitude v * magnitude v = magnitude_sq v.
Proof. unfold magnitude; apply sqrt_sqrt; apply magnitude_sq_nonneg. Qed.

Lemma magnitude_zero v : magnitude v = 0 <-> x v = 0 /\ y v = 0.
Proof.
  split.
  - intros H. pose proof (magnitude_square v) as S. rewrite H in S.
    unfold magnitude_sq in S. split; nra.
  - intros [Hx Hy]. unfold magnitude. rewrite Hx, Hy.
    apply sqrt_of_square; lra.
Qed.

Lemma magnitude_eq v r : 0 <= r -> magnitude_sq v = r * r -> magnitude v = r.
Proof. intros Hr H; unfold magnitude; now apply sqrt_of_square. Qed.

(** Normalisation never raises: its divisions are guarded. *)
Lemma normalized_ok v :
  normalized v =
  Ok (if Reqb (magnitude v) 0 then mk 0 0
      else mk (x v / magnitude v) (y v / magnitude v)).
Proof.
  unfold normalized. destruct (Reqb (magnitude v) 0) eqn:E; [reflexivity|].
  apply Reqb_false in E. now rewrite !float_div_ok by assumption.
Qed.

Lemma clamped_ok v m : exists w, clamped v m = Ok w.
Proof.
  unfold clamped. destruct (Rleb _ _); [now eexists|].
  rewrite normalized_ok. simpl. now eexists.
Qed.

(** A unit vector scaled by a non-negative factor has that length. *)
Lemma magnitude_scaled n s :
  dot n n = 1 -> 0 <= s -> magnitude (mul n s) = s.
Proof.
  intros Hn Hs. apply magnitude_eq; [assumption|].
  unfold magnitude_sq, dot, mul in *; simpl.
  replace (x n * s * (x n * s) + y n * s * (y n * s))
    with ((x n * x n + y n * y n) * (s * s)) by ring.
  rewrite Hn; ring.
Qed.

End VectorFacts.

Section ContactFacts.
Import Vector2D.

Lemma contact_axis_magnitude pos_a pos_b :
  magnitude (contact_axis pos_a pos_b) = contact_dist pos_a pos_b.
Proof.
  unfold contact_axis, contact_dist.
  destruct (Reqb (magnitude (sub pos_a pos_b)) 0); [|reflexivity].
  apply magnitude_eq; [lra|]. unfold magnitude_sq; simpl; lra.
Qed.

Lemma contact_dist_pos pos_a pos_b : 0 < contact_dist pos_a pos_b.
Proof.
  unfold contact_dist.
  destruct (Reqb (magnitude (sub pos_a pos_b)) 0) eqn:E; [lra|].
  apply Reqb_false in E.
  pose proof (magnitude_nonneg (sub pos_a pos_b)). lra.
Qed.

Lemma normalized_contact_axis pos_a pos_b :
  normalized (contact_axis pos_a pos_b) = Ok (unit_normal pos_a pos_b).
Proof.
  rewrite normalized_ok.
  assert (E : Reqb (magnitude (contact_axis pos_a pos_b)) 0 = false).
  { apply Reqb_false. rewrite contact_axis_magnitude.
    pose proof (contact_dist_pos pos_a pos_b). lra. }
  now rewrite E.
Qed.

Lemma unit_normal_unit pos_a pos_b :
  dot (unit_normal pos_a pos_b) (unit_normal pos_a pos_b) = 1.
Proof.
  unfold unit_normal, dot; simpl.
  pose proof (magnitude_square (contact_axis pos_a pos_b)) as S.
  pose proof (contact_dist_pos pos_a pos_b) as P.
  rewrite <- contact_axis_magnitude in P.
  unfold magnitude_sq in S.
  set (a := contact_axis pos_a pos_b) in *.
  set (m := magnitude a) in *.
  replace (x a / m * (x a / m) + y a / m * (y a / m))
    with ((x a * x a + y a * y a) / (m * m)) by (field; lra).
  rewrite <- S. field; lra.
Qed.

(** The axis is the unit normal stretched by the working distance. *)
Lemma contact_axis_scaled pos_a pos_b :
  contact_axis pos_a pos_b =
  mul (unit_normal pos_a pos_b) (contact_dist pos_a pos_b).
Proof.
  pose proof (contact_dist_pos pos_a pos_b) as P.
  rewrite <- contact_axis_magnitude in *.
  apply vec_eq; unfold unit_normal, mul; simpl; field; lra.
Qed.

(** [resolve_collision], branch by branch. *)
Lemma resolve_collision_eq pos_a vel_a mass_a radius_a pos_b vel_b mass_b radius_b :
  collision.resolve_collision
    pos_a vel_a mass_a radius_a pos_b vel_b mass_b radius_b =
  let n := unit_normal pos_a pos_b in
  let overlap := radius_a + radius_b - contact_dist pos_a pos_b in
  let correction := mul n (overlap / 2 + 0.5) in
  let pos_a' := if Rgtb overlap 0 then add pos_a correction else pos_a in
  let pos_b' := if Rgtb overlap 0 then sub pos_b correction else pos_b in
  let van := vel_along_normal pos_a vel_a pos_b vel_b in
  if Rgtb van 0 then Ok (vel_a, vel_b, pos_a', pos_b')
  else if Reqb (mass_a + mass_b) 0 then Raise ZeroDivisionError
  else
    let impulse := 2 * van / (mass_a + mass_b) in
    Ok (sub vel_a (mul n (impulse * mass_b)),
        add vel_b (mul n (impulse * mass_a)), pos_a', pos_b').
Proof.
  pose proof (normalized_contact_axis pos_a pos_b) as N.
  unfold collision.resolve_collision, vel_along_normal.
  unfold contact_axis, contact_dist in *.
  destruct (Reqb (magnitude (sub pos_a pos_b)) 0); rewrite N; cbn [bind];
    cbv zeta;
    (destruct (Rgtb (dot (sub vel_a vel_b) (unit_normal pos_a pos_b)) 0);
     [ destruct (Rgtb _ 0); [rewrite float_div_ok by lra|]; reflexivity
     | unfold float_div at 1;
       destruct (Reqb (mass_a + mass_b) 0); cbn [bind]; [reflexivity|];
       destruct (Rgtb _ 0); [rewrite float_div_ok by lra|]; reflexivity ]).
Qed.

End ContactFacts.

Section ContactEvaluation.
Import Vector2D.

Lemma magnitude_self_sub p : magnitude (sub p p) = 0.
Proof. apply magnitude_zero; simpl; split; ring. Qed.

Lemma contact_coincident p :
  contact_axis p p = mk 1 0 /\ contact_dist p p = 1 /\
  unit_normal p p = mk 1 0.
Proof.
  assert (E : Reqb (magnitude (sub p p)) 0 = true)
    by (apply Reqb_true, magnitude_self_sub).
  assert (A : contact_axis p p = mk 1 0).
  { unfold contact_axis. rewrite E. apply vec_eq; simpl; lra. }
  assert (D : contact_dist p p = 1).
  { unfold contact_dist. rewrite E. lra. }
  repeat split; try assumption.
  unfold unit_normal. rewrite contact_axis_magnitude, D, A.
  apply vec_eq; simpl; lra.
Qed.

Lemma contact_apart pos_a pos_b d :
  0 < d -> magnitude_sq (sub pos_a pos_b) = d * d ->
  contact_dist pos_a pos_b = d /\
  unit_normal pos_a pos_b =
  mk (x (sub pos_a pos_b) / d) (y (sub pos_a pos_b) / d).
Proof.
  intros Hd Hsq.
  assert (M : magnitude (sub pos_a pos_b) = d) by (apply magnitude_eq; lra).
  assert (E : Reqb (magnitude (sub pos_a pos_b)) 0 = false)
    by (apply Reqb_false; lra).
  assert (D : contact_dist pos_a pos_b = d).
  { unfold contact_dist. now rewrite E. }
  split; [assumption|].
  unfold unit_normal. rewrite contact_axis_magnitude, D.
  unfold contact_axis. now rewrite E.
Qed.

End ContactEvaluation.

Section SpawnFacts.

Lemma overlaps_existing_true position r bs :
  Simulation.overlaps_existing position r bs = true <->
  Exists (fun b => Vector2D.distance_to position (Ball.position b)
                   < r + Ball.radius b) bs.
Proof.
  induction bs as [|b rest IH]; simpl.
  - split; [discriminate | intros H; inversion H].
  - destruct (Rltb _ _) eqn:E.
    + split; [|reflexivity]. intros _. apply Exists_cons_hd.
      now apply Rltb_true.
    + apply Rltb_false in E. rewrite IH. split.
      * now apply Exists_cons_tl.
      * intros H. inversion H; subst; [contradiction | assumption].
Qed.

Lemma overlaps_existing_false position r bs :
  Simulation.overlaps_existing position r bs = false <->
  ~ Exists (fun b => Vector2D.distance_to position (Ball.position b)
                     < r + Ball.radius b) bs.
Proof.
  rewrite <- overlaps_existing_true.
  destruct (Simulation.overlaps_existing position r bs); split;
    intros; try discriminate; try reflexivity; congruence.
Qed.

End SpawnFacts.

Section UpdateFacts.
Import constants.

Lemma handle_wall_bounce_mass b w h :
  Ball.mass (fst (Ball.handle_wall_bounce b w h)) = Ball.mass b.
Proof.
  unfold Ball.handle_wall_bounce.
  repeat match goal with
         | |- context [if ?c then _ else _] => destruct c
         end; reflexivity.
Qed.

Lemma handle_wall_bounce_gravity_mass b w h :
  Ball.mass (fst (Ball.handle_wall_bounce_gravity b w h)) = Ball.mass b.
Proof.
  unfold Ball.handle_wall_bounce_gravity.
  repeat match goal with
         | |- context [if ?c then _ else _] => destruct c
         end; reflexivity.
Qed.

Lemma clamp_speed_ok b m :
  exists v, Ball.clamp_speed b m = Ok (Ball.set_velocity b v).
Proof.
  unfold Ball.clamp_speed.
  destruct (clamped_ok (Ball.velocity b) m) as [w ->]. now exists w.
Qed.

Lemma compute_wall_boost_ok v : exists w, forces.compute_wall_boost v = Ok w.
Proof.
  unfold forces.compute_wall_boost. destruct (Rgeb _ _); apply clamped_ok.
Qed.

Lemma compute_shockwave_impulse_ok p o :
  exists i, forces.compute_shockwave_impulse p o = Ok i.
Proof.
  unfold forces.compute_shockwave_impulse; cbv zeta.
  destruct (Rgtb _ _); [now eexists|].
  assert (H : py_max (Vector2D.magnitude (Vector2D.sub p o)) 1.0 <> 0).
  { unfold py_max. destruct (Rgtb _ _) eqn:E; [lra|].
    apply Rgtb_false in E. lra. }
  rewrite float_div_ok by exact H. cbn [bind].
  rewrite normalized_ok. cbn [bind]. now eexists.
Qed.

(** One ball of the first loop: it never raises for a mass that is not
    negative, it writes the timer exactly when the ball hit the left wall,
    and it leaves the mass alone. *)
Lemma update_ball_ok g b timer :
  0 <= Ball.mass b ->
  exists b',
    Simulation.update_ball g b timer
    = Ok (b', if hits_left_wall g b
              then IZR Simulation.WALL_GLOW_DURATION else timer) /\
    Ball.mass b' = Ball.mass b.
Proof.
  intros Hm.
  unfold Simulation.update_ball, hits_left_wall, forced_velocity.
  destruct g.
  - cbn [bind].
    change (Ball.set_velocity
              (Ball.set_velocity b (forces.apply_gravity (Ball.velocity b)))
              (forces.apply_air_resistance
                 (Ball.velocity
                    (Ball.set_velocity b
                       (forces.apply_gravity (Ball.velocity b))))))
      with (Ball.set_velocity b
              (forces.apply_air_resistance
                 (forces.apply_gravity (Ball.velocity b)))).
    set (b1 := Ball.update_position _).
    pose proof (handle_wall_bounce_gravity_mass
                  b1 WINDOW_WIDTH PLAY_AREA_HEIGHT) as M.
    destruct (Ball.handle_wall_bounce_gravity b1 WINDOW_WIDTH PLAY_AREA_HEIGHT)
      as [b2 [hit_left hit_floor]].
    simpl in M. cbn [fst snd].
    assert (M1 : Ball.mass b1 = Ball.mass b) by reflexivity.
    destruct hit_floor, hit_left; cbn [bind];
      repeat match goal with
             | |- context [forces.compute_wall_boost ?v] =>
                 destruct (compute_wall_boost_ok v) as [? ->]; cbn [bind]
             | |- context [Ball.clamp_speed ?x ?m] =>
                 destruct (clamp_speed_ok x m) as [? ->]; cbn [bind]
             end;
      eexists; (split; [reflexivity | simpl; congruence]).
  - unfold forces.apply_surface_friction.
    rewrite math_sqrt_ok by assumption. cbn [bind].
    set (b1 := Ball.update_position _).
    pose proof (handle_wall_bounce_mass b1 WINDOW_WIDTH PLAY_AREA_HEIGHT) as M.
    destruct (Ball.handle_wall_bounce b1 WINDOW_WIDTH PLAY_AREA_HEIGHT)
      as [b2 hit_left].
    simpl in M. cbn [fst snd].
    assert (M1 : Ball.mass b1 = Ball.mass b) by reflexivity.
    destruct hit_left; cbn [bind];
      repeat match goal with
             | |- context [forces.compute_wall_boost ?v] =>
                 destruct (compute_wall_boost_ok v) as [? ->]; cbn [bind]
             | |- context [Ball.clamp_speed ?x ?m] =>
                 destruct (clamp_speed_ok x m) as [? ->]; cbn [bind]
             end;
      eexists; (split; [reflexivity | simpl; congruence]).
Qed.

Lemma update_balls_ok g bs timer :
  positive_masses bs ->
  exists bs',
    Simulation.update_balls g bs timer
    = Ok (bs', if existsb (hits_left_wall g) bs
               then IZR Simulation.WALL_GLOW_DURATION else timer) /\
    positive_masses bs'.
Proof.
  intros H. revert timer.
  induction H as [|b rest Hb Hrest IH]; intros timer; simpl.
  - exists []. split; [reflexivity | constructor].
  - destruct (update_ball_ok g b timer (Rlt_le _ _ Hb)) as (b' & -> & Mb).
    cbn [bind].
    destruct (IH (if hits_left_wall g b
                  then IZR Simulation.WALL_GLOW_DURATION else timer))
      as (rest' & -> & Hrest').
    cbn [bind]. exists (b' :: rest'). split.
    + destruct (hits_left_wall g b); simpl; [|reflexivity].
      now destruct (existsb _ rest).
    + constructor; [rewrite Mb; exact Hb | exact Hrest'].
Qed.

Lemma list_put_length {A} (l : list A) i a :
  length (list_put l i a) = length l.
Proof.
  revert i; induction l as [|b rest IH]; intros [|i]; simpl; auto.
Qed.

Lemma list_put_Forall {A} (P : A -> Prop) l i a :
  P a -> Forall P l -> Forall P (list_put l i a).
Proof.
  intros Ha H. revert i.
  induction H as [|b rest Hb Hrest IH]; intros [|i]; simpl;
    constructor; auto.
Qed.

Lemma list_get_ok {A} (l : list A) i :
  (i < length l)%nat -> exists a, list_get l i = Ok a /\ In a l.
Proof.
  intros H. unfold list_get.
  destruct (nth_error l i) as [a|] eqn:E.
  - exists a. split; [reflexivity|]. eapply nth_error_In; eauto.
  - apply nth_error_None in E. lia.
Qed.

Lemma collide_pair_ok i j bs :
  (i < length bs)%nat -> (j < length bs)%nat -> positive_masses bs ->
  exists bs',
    Simulation.collide_pair i j bs = Ok bs' /\
    positive_masses bs' /\ length bs' = length bs.
Proof.
  intros Hi Hj Hpos. unfold Simulation.collide_pair.
  destruct (list_get_ok bs i Hi) as (a & -> & Ia).
  destruct (list_get_ok bs j Hj) as (b & -> & Ib).
  cbn [bind].
  unfold positive_masses in *.
  pose proof (proj1 (Forall_forall _ _) Hpos a Ia) as Ma.
  pose proof (proj1 (Forall_forall _ _) Hpos b Ib) as Mb.
  simpl in Ma, Mb.
  destruct (collision.detect_collision _ _ _ _); [|now exists bs].
  rewrite resolve_collision_eq; cbv zeta.
  rewrite (proj2 (Reqb_false (Ball.mass a + Ball.mass b) 0)) by lra.
  destruct (Rgtb (vel_along_normal _ _ _ _) 0); cbn [bind];
    (eexists; split; [reflexivity|]; split;
     [ apply list_put_Forall; [exact Mb|];
       apply list_put_Forall; [exact Ma | exact Hpos]
     | now rewrite !list_put_length ]).
Qed.

Lemma for_each_ok {A S} (Q : A -> Prop) (P : S -> Prop)
    (body : A -> S -> result S) xs :
  (forall x s, Q x -> P s -> exists s', body x s = Ok s' /\ P s') ->
  Forall Q xs ->
  forall s, P s -> exists s', for_each xs body s = Ok s' /\ P s'.
Proof.
  intros Hbody Hxs.
  induction Hxs as [|x rest Hx Hrest IH]; intros s Hs; simpl.
  - now exists s.
  - destruct (Hbody x s Hx Hs) as (s1 & -> & Hs1). cbn [bind].
    apply IH, Hs1.
Qed.

Lemma py_range_bound lo hi : Forall (fun i => (i < hi)%nat) (py_range lo hi).
Proof.
  unfold py_range. apply Forall_forall. intros i Hi.
  apply in_seq in Hi. lia.
Qed.

Lemma pairwise_collisions_ok bs :
  positive_masses bs ->
  exists bs',
    Simulation.pairwise_collisions bs = Ok bs' /\ positive_masses bs'.
Proof.
  intros Hpos. unfold Simulation.pairwise_collisions; cbv zeta.
  set (n := length bs).
  set (P := fun l : list Ball.t => positive_masses l /\ length l = n).
  assert (H : exists bs',
             for_each (py_range 0 n)
               (fun i l => for_each (py_range (i + 1) n)
                             (Simulation.collide_pair i) l) bs = Ok bs' /\
             P bs').
  { apply (for_each_ok (fun i => (i < n)%nat) P).
    - intros i l Hi Hl.
      apply (for_each_ok (fun j => (j < n)%nat) P).
      + intros j l' Hj [Hl1 Hl2].
        destruct (collide_pair_ok i j l') as (l'' & E & H1 & H2);
          [lia | lia | exact Hl1 |].
        exists l''. split; [exact E|]. split; [exact H1 | lia].
      + apply py_range_bound.
      + exact Hl.
    - apply py_range_bound.
    - split; [exact Hpos | reflexivity]. }
  destruct H as (bs' & E & Hp & _). now exists bs'.
Qed.

Lemma shock_balls_ok origin bs :
  positive_masses bs ->
  exists bs', Simulation.shock_balls origin bs = Ok bs' /\ positive_masses bs'.
Proof.
  induction 1 as [|b rest Hb Hrest IH]; simpl.
  - exists []. split; [reflexivity | constructor].
  - destruct (compute_shockwave_impulse_ok (Ball.position b) origin)
      as [i ->]. cbn [bind].
    destruct (clamp_speed_ok (Ball.apply_impulse b i) MAX_SPEED_CAP)
      as [v ->]. cbn [bind].
    destruct IH as (rest' & -> & Hrest'). cbn [bind].
    eexists. split; [reflexivity|]. constructor; assumption.
Qed.

Lemma list_remove_Forall (P : Ball.t -> Prop) bs ball :
  Forall P bs -> Forall P (Simulation.list_remove bs ball).
Proof.
  induction 1 as [|b rest Hb Hrest IH]; simpl; [constructor|].
  destruct (Nat.eqb _ _); [assumption | now constructor].
Qed.

Lemma create_random_ok position color velocity rt :
  fair_samples rt ->
  0 < Ball.mass (fst (Ball.create_random position color velocity rt)) /\
  fair_samples (snd (Ball.create_random position color velocity rt)).
Proof.
  intros Hf. unfold Ball.create_random, runtime.uniform, runtime.random.
  cbv zeta.
  pose proof (Hf (runtime.cursor rt)) as Hu.
  destruct velocity as [v|]; simpl; (split; [|exact Hf]);
    unfold MASS_DENSITY, MIN_RADIUS, MAX_RADIUS;
    set (u := runtime.samples rt (runtime.cursor rt)) in *;
    pose proof PI_RGT_0;
    assert (12 <= 12 + (30 - 12) * u) by lra;
    (apply Rmult_lt_0_compat;
     [apply Rmult_lt_0_compat; [apply Rmult_lt_0_compat|]|]); lra.
Qed.

(** The step of [update] on positive masses: it returns, and the glow timer
    is the full duration after a left-wall hit and the old value otherwise,
    less the end-of-frame decrement. *)
Lemma update_ok s :
  positive_masses (Simulation.balls s) ->
  Simulation.paused s = false ->
  exists s',
    Simulation.update s = Ok s' /\
    positive_masses (Simulation.balls s') /\
    Simulation.wall_glow_timer s' =
      (let timer :=
         if existsb (hits_left_wall (Simulation.gravity_on s))
              (Simulation.balls s)
         then IZR Simulation.WALL_GLOW_DURATION
         else Simulation.wall_glow_timer s in
       if Rgtb timer 0 then timer - 1 else timer).
Proof.
  intros Hpos Hp. unfold Simulation.update. rewrite Hp.
  destruct (update_balls_ok (Simulation.gravity_on s) (Simulation.balls s)
              (Simulation.wall_glow_timer s) Hpos) as (bs1 & -> & H1).
  cbn [bind].
  destruct (pairwise_collisions_ok bs1 H1) as (bs2 & -> & H2).
  cbn [bind]. eexists. split; [reflexivity|]. split; [exact H2|reflexivity].
Qed.

Lemma whole_timer_decay timer :
  whole_timer timer ->
  whole_timer (if Rgtb timer 0 then timer - 1 else timer).
Proof.
  intros (k & Hk & ->). unfold whole_timer.
  destruct (Rgtb (IZR k) 0) eqn:E.
  - apply Rgtb_true in E. apply lt_IZR in E.
    exists (k - 1)%Z. split; [lia|]. now rewrite minus_IZR.
  - exists k. split; [exact Hk | reflexivity].
Qed.

Lemma whole_timer_zero : whole_timer 0.0.
Proof.
  exists 0%Z. split; [unfold Simulation.WALL_GLOW_DURATION; lia | lra].
Qed.

Lemma whole_timer_full : whole_timer (IZR Simulation.WALL_GLOW_DURATION).
Proof.
  exists Simulation.WALL_GLOW_DURATION. split; [|reflexivity].
  unfold Simulation.WALL_GLOW_DURATION; lia.
Qed.

(** The invariant of the reachable states. *)
Lemma reachable_invariant s rt :
  reachable s rt ->
  positive_masses (Simulation.balls s) /\
  whole_timer (Simulation.wall_glow_timer s) /\
  fair_samples rt.
Proof.
  induction 1 as
    [ rt Hf
    | s rt position color velocity ball s' rt' _ (Hpos & Ht & Hf) Hspawn
    | s rt s' _ (Hpos & Ht & Hf) Hupd
    | s rt ball _ (Hpos & Ht & Hf)
    | s rt _ (Hpos & Ht & Hf)
    | s rt origin s' _ (Hpos & Ht & Hf) Hshock
    | s rt _ (Hpos & Ht & Hf)
    | s rt _ (Hpos & Ht & Hf) ].
  - repeat split; [constructor | apply whole_timer_zero | apply Hf | apply Hf].
  - unfold Simulation.spawn_ball in Hspawn.
    rewrite float_div_ok in Hspawn by lra. cbn [bind] in Hspawn.
    destruct (create_random_ok position color velocity rt Hf) as [Hm Hf'].
    destruct (Simulation.overlaps_existing _ _ _).
    + inversion Hspawn; subst. auto.
    + destruct (Ball.create_random position color velocity rt) as [b r].
      simpl in Hm, Hf'.
      destruct (Simulation.overlaps_existing _ _ _);
        inversion Hspawn; subst; simpl; auto.
      repeat split; auto; try apply Hf'.
      apply Forall_app. split; [exact Hpos | now constructor].
  - unfold Simulation.update in Hupd.
    destruct (Simulation.paused s) eqn:Hp.
    + inversion Hupd; subst. auto.
    + destruct (update_ok s Hpos Hp) as (s1 & E & H1 & H2).
      unfold Simulation.update in E. rewrite Hp in E.
      rewrite E in Hupd. inversion Hupd; subst.
      split; [exact H1|]. split; [|exact Hf].
      rewrite H2. cbv zeta. apply whole_timer_decay.
      destruct (existsb _ _); [apply whole_timer_full | exact Ht].
  - unfold Simulation.remove_ball.
    destruct (existsb _ _); simpl; auto.
    split; [now apply list_remove_Forall | auto].
  - simpl. repeat split; [constructor | apply whole_timer_zero | apply Hf | apply Hf].
  - unfold Simulation.apply_shockwave in Hshock.
    destruct (shock_balls_ok origin _ Hpos) as (bs' & E & H').
    rewrite E in Hshock. cbn [bind] in Hshock.
    inversion Hshock; subst; simpl. auto.
  - simpl; auto.
  - simpl; auto.
Qed.

End UpdateFacts.

Section Totality.

(** From a reachable state every public operation returns normally, so the
    reachable states lose nothing by following normal returns only. *)
Lemma public_operations_return s rt :
  reachable s rt ->
  (exists s', Simulation.update s = Ok s') /\
  (forall origin, exists s', Simulation.apply_shockwave s origin = Ok s') /\
  (forall position color velocity,
     exists r, Simulation.spawn_ball s position color velocity rt = Ok r).
Proof.
  intros Hreach.
  destruct (reachable_invariant s rt Hreach) as (Hpos & _ & _).
  split; [|split].
  - destruct (Simulation.paused s) eqn:Hp.
    + exists s. unfold Simulation.update. now rewrite Hp.
    + destruct (update_ok s Hpos Hp) as (s' & E & _). now exists s'.
  - intros origin. unfold Simulation.apply_shockwave.
    destruct (shock_balls_ok origin _ Hpos) as (bs' & -> & _).
    cbn [bind]. now eexists.
  - intros position color velocity. unfold Simulation.spawn_ball.
    rewrite float_div_ok by lra. cbn [bind].
    destruct (Simulation.overlaps_existing _ _ _); [now eexists|].
    destruct (Ball.create_random position color velocity rt) as [b r].
    destruct (Simulation.overlaps_existing _ _ _); now eexists.
Qed.

End Totality.

(** * Scenarios of the test suite, run on the embedding *)

Section Scenarios.
Import Vector2D.

Example test_overlapping_circles :
  collision.detect_collision (mk 0 0) 10 (mk 15 0) 10 = true.
Proof.
  unfold collision.detect_collision, distance_sq_to, magnitude_sq; simpl.
  apply Rltb_true. lra.
Qed.

Example test_non_overlapping_circles :
  collision.detect_collision (mk 0 0) 10 (mk 25 0) 10 = false.
Proof.
  unfold collision.detect_collision, distance_sq_to, magnitude_sq; simpl.
  apply Rltb_false. lra.
Qed.

Example test_equal_mass_head_on_swap_velocities :
  collision.resolve_collision (mk 0 0) (mk 5 0) 1 10 (mk 15 0) (mk (-5) 0) 1 10
  = Ok (mk (-5) 0, mk 5 0, mk (-3) 0, mk 18 0).
Proof.
  rewrite resolve_collision_eq; cbv zeta. unfold vel_along_normal.
  destruct (contact_apart (mk 0 0) (mk 15 0) 15) as [-> ->];
    [lra | unfold magnitude_sq; simpl; lra |].
  unfold dot; simpl. rcmp.
  repeat f_equal; apply vec_eq; simpl; lra.
Qed.

Example test_left_wall_bounce :
  Ball.handle_wall_bounce
    (Ball.mk 0 (mk 5 100) (mk (-10) 0) 10 (1.0 * PI * 10 * 10) (0, 0, 0)%Z)
    800 420
  = (Ball.mk 0 (mk 10 100) (mk (- -10) 0) 10 (1.0 * PI * 10 * 10) (0, 0, 0)%Z,
     true).
Proof.
  unfold Ball.handle_wall_bounce; simpl. rcmp. simpl. rcmp. reflexivity.
Qed.

End Scenarios.

(** * Facts about the binary64 operations *)

Section B64Facts.
Import B64.
Local Open Scope float_scope.

(** Two floats that compare equal are not strictly ordered, and conversely. *)
Lemma eqb_not_ltb a b : (a =? b) = true -> (a <? b) = false.
Proof.
  rewrite FloatAxioms.eqb_spec, FloatAxioms.ltb_spec. unfold SFeqb, SFltb.
  destruct (SFcompare (Prim2SF a) (Prim2SF b)) as [[| |]|];
    intros H; try discriminate H; reflexivity.
Qed.

Lemma ltb_not_eqb a b : (a <? b) = true -> (a =? b) = false.
Proof.
  rewrite FloatAxioms.eqb_spec, FloatAxioms.ltb_spec. unfold SFeqb, SFltb.
  destruct (SFcompare (Prim2SF a) (Prim2SF b)) as [[| |]|];
    intros H; try discriminate H; reflexivity.
Qed.

(** A float that compares equal to zero is one of the two zeros. *)
Lemma eqb_zero a : (a =? 0) = true -> a = 0 \/ a = -0.
Proof.
  rewrite FloatAxioms.eqb_spec. unfold SFeqb.
  intros H. rewrite <- (SF2Prim_Prim2SF a).
  destruct (Prim2SF a) as [[|]| [|] | | [|] m e];
    try discriminate H; [right | left]; reflexivity.
Qed.

Lemma float_div_nonzero a b : (b =? 0) = false -> B64.float_div a b = Ok (a / b).
Proof. intros H. unfold B64.float_div. now rewrite H. Qed.

Lemma float_div_by_zero a b :
  (b =? 0) = true -> B64.float_div a b = Raise ZeroDivisionError.
Proof. intros H. unfold B64.float_div. now rewrite H. Qed.

(** [normalized] never raises: it divides only by a magnitude that did not
    compare equal to zero. *)
Lemma b64_normalized_direction v : B64.normalized v = Ok (direction v).
Proof.
  unfold B64.normalized, direction; cbv zeta.
  destruct (B64.magnitude v =? 0) eqn:E; [reflexivity|].
  rewrite !float_div_nonzero by exact E. reflexivity.
Qed.

(** The axis handed to [normalized] never has magnitude zero. *)
Lemma b64_contact_axis_magnitude pos_a pos_b :
  B64.magnitude (B64.contact_axis pos_a pos_b) = B64.contact_dist pos_a pos_b.
Proof.
  unfold B64.contact_axis, B64.contact_dist; cbv zeta.
  destruct (B64.magnitude (B64.sub pos_a pos_b) =? 0); reflexivity.
Qed.

(** [resolve_collision], branch by branch. *)
Lemma b64_resolve_collision_eq
    pos_a vel_a mass_a radius_a pos_b vel_b mass_b radius_b :
  let n := B64.unit_normal pos_a pos_b in
  let van := B64.vel_along_normal pos_a vel_a pos_b vel_b in
  let overlap := radius_a + radius_b - B64.contact_dist pos_a pos_b in
  let c := B64.mul n (overlap / 2 + 0.5) in
  let pos_a' := if 0 <? overlap then B64.add pos_a c else pos_a in
  let pos_b' := if 0 <? overlap then B64.sub pos_b c else pos_b in
  B64.resolve_collision pos_a vel_a mass_a radius_a pos_b vel_b mass_b radius_b
  = if 0 <? van then Ok (vel_a, vel_b, pos_a', pos_b')
    else if mass_a + mass_b =? 0 then Raise ZeroDivisionError
    else
      let impulse := 2 * van / (mass_a + mass_b) in
      Ok (B64.sub vel_a (B64.mul n (impulse * mass_b)),
          B64.add vel_b (B64.mul n (impulse * mass_a)),
          pos_a', pos_b').
Proof.
  cbv zeta.
  unfold B64.resolve_collision, B64.vel_along_normal, B64.unit_normal,
    B64.contact_axis, B64.contact_dist; cbv zeta.
  destruct (B64.magnitude (B64.sub pos_a pos_b) =? 0) eqn:D;
    rewrite b64_normalized_direction; cbn [bind];
    (match goal with |- context [0 <? B64.dot ?r ?n] =>
       destruct (0 <? B64.dot r n) end);
    (match goal with |- context [0 <? ?o - ?d] =>
       destruct (0 <? o - d) end);
    try reflexivity;
    unfold B64.float_div;
    destruct (mass_a + mass_b =? 0); reflexivity.
Qed.

End B64Facts.

(** * Collision engine *)

Section CollisionClaims.
Import Vector2D.

(** C8. When the bodies already separate along the normal
    ([vel_along_normal > 0]) both velocities come back untouched; the
    positions are still pushed apart by [overlap / 2 + 0.5] each when the
    bodies overlap, and are untouched otherwise. *)
Theorem resolve_collision_separating
    pos_a vel_a mass_a radius_a pos_b vel_b mass_b radius_b :
  vel_along_normal pos_a vel_a pos_b vel_b > 0 ->
  let n := unit_normal pos_a pos_b in
  let overlap := radius_a + radius_b - contact_dist pos_a pos_b in
  exists pos_a' pos_b',
    collision.resolve_collision
      pos_a vel_a mass_a radius_a pos_b vel_b mass_b radius_b
    = Ok (vel_a, vel_b, pos_a', pos_b') /\
    (overlap > 0 ->
     pos_a' = add pos_a (mul n (overlap / 2 + 0.5)) /\
     pos_b' = sub pos_b (mul n (overlap / 2 + 0.5))) /\
    (~ overlap > 0 -> pos_a' = pos_a /\ pos_b' = pos_b).
Proof.
  intros Hsep n overlap.
  rewrite resolve_collision_eq; cbv zeta.
  rewrite (proj2 (Rgtb_true _ _) Hsep).
  fold overlap. fold n.
  destruct (Rgtb overlap 0) eqn:E.
  - apply Rgtb_true in E. do 2 eexists. split; [reflexivity|].
    split; [auto | intros; contradiction].
  - apply Rgtb_false in E. do 2 eexists. split; [reflexivity|].
    split; [intros; contradiction | auto].
Qed.

Lemma resolve_collision_separating_witness :
  vel_along_normal (mk 0 0) (mk (-5) 0) (mk 15 0) (mk 5 0) > 0 /\
  exists pos_a' pos_b',
    collision.resolve_collision
      (mk 0 0) (mk (-5) 0) 1 10 (mk 15 0) (mk 5 0) 1 10
    = Ok (mk (-5) 0, mk 5 0, pos_a', pos_b').
Proof.
  assert (H : vel_along_normal (mk 0 0) (mk (-5) 0) (mk 15 0) (mk 5 0) > 0).
  { unfold vel_along_normal.
    destruct (contact_apart (mk 0 0) (mk 15 0) 15) as [_ ->];
      [lra | unfold magnitude_sq; simpl; lra |].
    unfold dot; simpl. lra. }
  split; [exact H|].
  destruct (resolve_collision_separating
              (mk 0 0) (mk (-5) 0) 1 10 (mk 15 0) (mk 5 0) 1 10 H)
    as (pa & pb & E & _).
  exists pa, pb. exact E.
Defined.

(** ** The same call under exact arithmetic

    The lemmas below read the arithmetic of [resolve_collision] as exact.
    They say what the rounded results approximate; the statements about
    the binary64 results follow in the next section. *)

(** Under exact arithmetic the two position corrections cancel: the sum of
    the returned centres is the sum of the given ones, whatever branch is
    taken.  The call returns unless the impulse branch divides by a zero
    total mass. *)
Lemma resolve_collision_midpoint
    pos_a vel_a mass_a radius_a pos_b vel_b mass_b radius_b :
  match collision.resolve_collision
          pos_a vel_a mass_a radius_a pos_b vel_b mass_b radius_b with
  | Ok (_, _, pos_a', pos_b') => add pos_a' pos_b' = add pos_a pos_b
  | Raise e =>
      e = ZeroDivisionError /\ mass_a + mass_b = 0 /\
      vel_along_normal pos_a vel_a pos_b vel_b <= 0
  end.
Proof.
  rewrite resolve_collision_eq; cbv zeta.
  set (c := mul _ _).
  assert (S : forall b : bool,
             add (if b then add pos_a c else pos_a)
                 (if b then sub pos_b c else pos_b) = add pos_a pos_b).
  { intros [|]; [|reflexivity]. apply vec_eq; simpl; ring. }
  destruct (Rgtb (vel_along_normal _ _ _ _) 0) eqn:V; [apply S|].
  apply Rgtb_false in V.
  destruct (Reqb (mass_a + mass_b) 0) eqn:M; [|apply S].
  apply Reqb_true in M. repeat split; [assumption | lra].
Qed.

(** Under exact arithmetic, for positive masses and approaching bodies
    ([vel_along_normal <= 0]) the call returns, total momentum
    [mass_a * vel_a + mass_b * vel_b] and total kinetic energy
    [mass_a * |vel_a|^2 + mass_b * |vel_b|^2] are the same before and after,
    and the velocity components across the separation axis are untouched. *)
Lemma resolve_collision_conserves
    pos_a vel_a mass_a radius_a pos_b vel_b mass_b radius_b :
  0 < mass_a -> 0 < mass_b ->
  vel_along_normal pos_a vel_a pos_b vel_b <= 0 ->
  exists vel_a' vel_b' pos_a' pos_b',
    collision.resolve_collision
      pos_a vel_a mass_a radius_a pos_b vel_b mass_b radius_b
    = Ok (vel_a', vel_b', pos_a', pos_b') /\
    add (mul vel_a' mass_a) (mul vel_b' mass_b)
    = add (mul vel_a mass_a) (mul vel_b mass_b) /\
    mass_a * magnitude_sq vel_a' + mass_b * magnitude_sq vel_b'
    = mass_a * magnitude_sq vel_a + mass_b * magnitude_sq vel_b /\
    (forall t, dot t (contact_axis pos_a pos_b) = 0 ->
               dot vel_a' t = dot vel_a t /\ dot vel_b' t = dot vel_b t).
Proof.
  intros Ha Hb Happ.
  rewrite resolve_collision_eq; cbv zeta.
  rewrite (proj2 (Rgtb_false _ _)) by lra.
  rewrite (proj2 (Reqb_false _ _)) by lra.
  do 4 eexists. split; [reflexivity|].
  pose proof (unit_normal_unit pos_a pos_b) as U.
  pose proof (contact_axis_scaled pos_a pos_b) as A.
  pose proof (contact_dist_pos pos_a pos_b) as P.
  unfold vel_along_normal in *.
  revert U A Happ.
  destruct (unit_normal pos_a pos_b) as [nx ny].
  generalize (contact_dist pos_a pos_b) (contact_axis pos_a pos_b) P.
  intros d axis Hd U A Happ. subst axis.
  unfold dot in *; simpl in *.
  set (van := (x vel_a - x vel_b) * nx + (y vel_a - y vel_b) * ny) in *.
  set (j := 2 * van / (mass_a + mass_b)).
  assert (J : j * (mass_a + mass_b) = 2 * van) by (unfold j; field; lra).
  clearbody j.
  split; [|split].
  - apply vec_eq; simpl; ring.
  - unfold magnitude_sq; simpl.
    match goal with
    | |- ?L = ?E =>
        replace L with
          (E + mass_a * mass_b * j *
                 (j * (mass_a + mass_b) * (nx * nx + ny * ny) - 2 * van))
          by (unfold van; ring)
    end.
    rewrite U, J. ring.
  - intros t Ht.
    assert (T : x t * nx + y t * ny = 0).
    { apply (Rmult_eq_reg_r d); [|lra]. rewrite Rmult_0_l, <- Ht. ring. }
    split.
    + replace (_ + _) with
        (x vel_a * x t + y vel_a * y t - j * mass_b * (x t * nx + y t * ny))
        by ring.
      rewrite T; ring.
    + replace ((x vel_b + _) * _ + _) with
        (x vel_b * x t + y vel_b * y t + j * mass_a * (x t * nx + y t * ny))
        by ring.
      rewrite T; ring.
Qed.

(** Coincident centres, under exact arithmetic as on binary64 at these
    inputs: the substituted distance [1.0] eats the [0.5] margins, and the
    bodies end exactly touching, not apart. *)
Lemma resolve_collision_coincident_touching :
  distance_to (mk 5 5) (mk 5 5) < 5 + 5 /\
  collision.resolve_collision (mk 5 5) (mk 1 0) 1 5 (mk 5 5) (mk (-1) 0) 1 5
  = Ok (mk 1 0, mk (-1) 0, mk 10 5, mk 0 5) /\
  ~ distance_to (mk 10 5) (mk 0 5) > 5 + 5.
Proof.
  split; [|split].
  - unfold distance_to. rewrite magnitude_self_sub. lra.
  - rewrite resolve_collision_eq; cbv zeta. unfold vel_along_normal.
    destruct (contact_coincident (mk 5 5)) as (_ & -> & ->).
    unfold dot; simpl. rcmp.
    repeat f_equal; apply vec_eq; simpl; lra.
  - assert (D : distance_to (mk 10 5) (mk 0 5) = 10).
    { apply magnitude_eq; [lra|]. unfold magnitude_sq; simpl; lra. }
    rewrite D. lra.
Qed.

(** With a radius sum of at most [1] the coincident centres are not moved
    at all. *)
Lemma resolve_collision_coincident_small :
  collision.resolve_collision
    (mk 5 5) (mk 1 0) 1 0.5 (mk 5 5) (mk (-1) 0) 1 0.5
  = Ok (mk 1 0, mk (-1) 0, mk 5 5, mk 5 5).
Proof.
  rewrite resolve_collision_eq; cbv zeta. unfold vel_along_normal.
  destruct (contact_coincident (mk 5 5)) as (_ & -> & ->).
  unfold dot; simpl. rcmp. reflexivity.
Qed.

End CollisionClaims.

(** * The collision engine on binary64 *)

Section B64Claims.
Import B64.
Local Open Scope float_scope.

Lemma SFcompare_antisym a b :
  SFcompare b a = option_map CompOpp (SFcompare a b).
Proof.
  destruct a as [[|]|[|]| |[|] m1 e1], b as [[|]|[|]| |[|] m2 e2];
    try reflexivity; simpl;
    rewrite (Z.compare_antisym e1 e2);
    destruct (e1 ?= e2)%Z; simpl; try reflexivity;
    rewrite (Pos.compare_cont_antisym m1 m2 Eq); simpl;
    try rewrite CompOpp_involutive; reflexivity.
Qed.

(** Of two floats at most one is strictly below the other. *)
Lemma ltb_asym a b : (b <? a) = true -> (a <? b) = false.
Proof.
  rewrite !FloatAxioms.ltb_spec. unfold SFltb.
  rewrite (SFcompare_antisym (Prim2SF a) (Prim2SF b)).
  destruct (SFcompare (Prim2SF a) (Prim2SF b)) as [[| |]|];
    intros H; try discriminate H; reflexivity.
Qed.

(** C3, as stated, fails on binary64.  The centres [(0, 0)] and
    [(25769804016, 34359738688)] are exactly
    [17179869344 + 25769804016 = 42949673360] apart, a 3-4-5 triangle with
    integer sides, and every input is a float.  The squared distance rounds
    down and the squared radius sum rounds up, so the touching pair is
    reported as colliding. *)
Lemma detect_collision_touching_reported :
  (25769804016 * 25769804016 + 34359738688 * 34359738688
   = (17179869344 + 25769804016) * (17179869344 + 25769804016))%Z /\
  (Qeq_bool (exact 17179869344) (inject_Z 17179869344) &&
   Qeq_bool (exact 25769804016) (inject_Z 25769804016) &&
   Qeq_bool (exact 34359738688) (inject_Z 34359738688))%bool = true /\
  distance_sq_to (mk 0 0) (mk 25769804016 34359738688)
  = 0x1.9000007d00000p+70 /\
  (17179869344 + 25769804016) * (17179869344 + 25769804016)
  = 0x1.9000007d00001p+70 /\
  detect_collision (mk 0 0) 17179869344 (mk 25769804016 34359738688)
                   25769804016 = true.
Proof. repeat split; vm_compute; reflexivity. Qed.

(** C3, amended.  [detect_collision] compares two computed floats, the
    squared distance of the centres and the square of the radius sum: it
    answers [True] when the first is strictly below the second, and [False]
    when the two are equal or the first is strictly above. *)
Theorem detect_collision_computed pos_a radius_a pos_b radius_b :
  let dist_sq := distance_sq_to pos_a pos_b in
  let min_dist := radius_a + radius_b in
  (detect_collision pos_a radius_a pos_b radius_b = true <->
   (dist_sq <? min_dist * min_dist) = true) /\
  ((dist_sq =? min_dist * min_dist) = true ->
   detect_collision pos_a radius_a pos_b radius_b = false) /\
  ((min_dist * min_dist <? dist_sq) = true ->
   detect_collision pos_a radius_a pos_b radius_b = false).
Proof.
  intros dist_sq min_dist. unfold detect_collision; cbv zeta.
  fold dist_sq. fold min_dist.
  split; [reflexivity|]. split.
  - apply eqb_not_ltb.
  - apply ltb_asym.
Qed.

Lemma detect_collision_computed_witness :
  (distance_sq_to (mk 0 0) (mk 20 0) =? (10 + 10) * (10 + 10)) = true /\
  detect_collision (mk 0 0) 10 (mk 20 0) 10 = false /\
  detect_collision (mk 0 0) 10 (mk 19 0) 10 = true.
Proof.
  destruct (detect_collision_computed (mk 0 0) 10 (mk 20 0) 10)
    as (_ & Heq & _).
  destruct (detect_collision_computed (mk 0 0) 10 (mk 19 0) 10)
    as (Hlt & _).
  split; [reflexivity|]. split.
  - apply Heq. reflexivity.
  - apply Hlt. reflexivity.
Defined.




(** C10, as stated, fails on binary64: centres [(0, 0)] and [(0.37, 0)] with
    radii [10] come back as [-10.315] and [10.684999999999999], whose sum is
    [0.36999999999999922], not [0.37]; the exact sum of the two returned
    floats is not [0.37] either. *)
Lemma resolve_collision_midpoint_rounds :
  resolve_collision (mk 0 0) (mk 0 0) 1 10
                    (mk 0x1.7ae147ae147aep-2 0) (mk 0 0) 1 10
  = Ok (mk 0 0, mk 0 0,
        mk (-0x1.4a147ae147ae1p+3) 0, mk 0x1.55eb851eb851ep+3 0) /\
  add (mk (-0x1.4a147ae147ae1p+3) 0) (mk 0x1.55eb851eb851ep+3 0)
  = mk 0x1.7ae147ae147a0p-2 0 /\
  add (mk 0 0) (mk 0x1.7ae147ae147aep-2 0) = mk 0x1.7ae147ae147aep-2 0 /\
  (0x1.7ae147ae147a0p-2 =? 0x1.7ae147ae147aep-2) = false /\
  Qeq_bool (exact (-0x1.4a147ae147ae1p+3) + exact 0x1.55eb851eb851ep+3)
           (exact 0 + exact 0x1.7ae147ae147aep-2) = false.
Proof. repeat split; vm_compute; reflexivity. Qed.

(** C10, amended.  The two position corrections are one vector [c], added
    to [pos_a] and subtracted from [pos_b], when the bodies overlap, and
    the positions are returned as given when they do not.  The call
    returns unless the impulse branch divides by a zero total mass. *)
Theorem resolve_collision_opposite_corrections
    pos_a vel_a mass_a radius_a pos_b vel_b mass_b radius_b :
  let overlap := radius_a + radius_b - contact_dist pos_a pos_b in
  let c := mul (unit_normal pos_a pos_b) (overlap / 2 + 0.5) in
  match resolve_collision
          pos_a vel_a mass_a radius_a pos_b vel_b mass_b radius_b with
  | Ok (_, _, pos_a', pos_b') =>
      if 0 <? overlap then pos_a' = add pos_a c /\ pos_b' = sub pos_b c
      else pos_a' = pos_a /\ pos_b' = pos_b
  | Raise e =>
      e = ZeroDivisionError /\ (mass_a + mass_b =? 0) = true /\
      (0 <? vel_along_normal pos_a vel_a pos_b vel_b) = false
  end.
Proof.
  intros overlap c.
  rewrite b64_resolve_collision_eq; cbv zeta. fold overlap. fold c.
  destruct (0 <? vel_along_normal pos_a vel_a pos_b vel_b).
  - destruct (0 <? overlap); split; reflexivity.
  - destruct (mass_a + mass_b =? 0).
    + repeat split.
    + destruct (0 <? overlap); split; reflexivity.
Qed.

(** C2.  Coincident centres at [x = 11.4] with radii [5]: the returned
    centres are [16.399999999999999] and [6.4000000000000004],
    [9.9999999999999982] apart, and [detect_collision] still reports the
    pair. *)
Theorem resolve_collision_still_overlapping :
  (distance_to (mk 0x1.6cccccccccccdp+3 0) (mk 0x1.6cccccccccccdp+3 0) <? 5 + 5)
  = true /\
  resolve_collision (mk 0x1.6cccccccccccdp+3 0) (mk 1 0) 1 5
                    (mk 0x1.6cccccccccccdp+3 0) (mk (-1) 0) 1 5
  = Ok (mk 1 0, mk (-1) 0,
        mk 0x1.0666666666666p+4 0, mk 0x1.999999999999ap+2 0) /\
  distance_to (mk 0x1.0666666666666p+4 0) (mk 0x1.999999999999ap+2 0)
  = 0x1.3ffffffffffffp+3 /\
  (0x1.3ffffffffffffp+3 <? 5 + 5) = true /\
  Qeq_bool (exact 0x1.0666666666666p+4 - exact 0x1.999999999999ap+2)
           (exact 0x1.3ffffffffffffp+3) = true /\
  detect_collision (mk 0x1.0666666666666p+4 0) 5
                   (mk 0x1.999999999999ap+2 0) 5 = true.
Proof. repeat split; vm_compute; reflexivity. Qed.

(** C4, as stated, fails on binary64: [399] and the next float above it are
    two distances in [(1, SHOCKWAVE_RADIUS]], and both receive the impulse
    [2.0050125313283207]. *)
Lemma shockwave_impulse_plateau :
  magnitude (sub (mk 399 0) (mk 0 0)) = 399 /\
  magnitude (sub (mk 0x1.8f00000000001p+8 0) (mk 0 0)) = 0x1.8f00000000001p+8 /\
  (1 <? 399) = true /\ (399 <? 0x1.8f00000000001p+8) = true /\
  (0x1.8f00000000001p+8 <=? SHOCKWAVE_RADIUS) = true /\
  compute_shockwave_impulse (mk 399 0) (mk 0 0)
  = Ok (mk 0x1.00a44029100a4p+1 0) /\
  compute_shockwave_impulse (mk 0x1.8f00000000001p+8 0) (mk 0 0)
  = Ok (mk 0x1.00a44029100a4p+1 0) /\
  (magnitude (mk 0x1.00a44029100a4p+1 0)
   <? magnitude (mk 0x1.00a44029100a4p+1 0)) = false.
Proof. repeat split; vm_compute; reflexivity. Qed.

End B64Claims.

(** * Forces *)

Section ShockwaveClaims.
Import Vector2D constants.

Lemma py_max_one dist : py_max dist 1.0 = Rmax dist 1 /\ 1 <= py_max dist 1.0.
Proof.
  unfold py_max. replace 1.0 with 1 by lra.
  destruct (Rgtb 1 dist) eqn:E.
  - apply Rgtb_true in E. rewrite Rmax_right by lra. lra.
  - apply Rgtb_false in E. rewrite Rmax_left by lra. lra.
Qed.

(** The impulse outside the epicentre and inside the radius: the unit
    direction times [SHOCKWAVE_STRENGTH / max(dist, 1.0)], of exactly that
    length. *)
Lemma shockwave_impulse_inside ball_pos origin :
  let d := sub ball_pos origin in
  let dist := magnitude d in
  0 < dist -> dist <= SHOCKWAVE_RADIUS ->
  normalized d = Ok (mk (x d / dist) (y d / dist)) /\
  forces.compute_shockwave_impulse ball_pos origin
  = Ok (mul (mk (x d / dist) (y d / dist))
            (SHOCKWAVE_STRENGTH / py_max dist 1.0)) /\
  magnitude (mul (mk (x d / dist) (y d / dist))
                 (SHOCKWAVE_STRENGTH / py_max dist 1.0))
  = SHOCKWAVE_STRENGTH / py_max dist 1.0.
Proof.
  intros d dist Hpos Hin.
  destruct (py_max_one dist) as [_ Hmax].
  assert (N : normalized d = Ok (mk (x d / dist) (y d / dist))).
  { rewrite normalized_ok. fold dist.
    now rewrite (proj2 (Reqb_false dist 0)) by lra. }
  split; [exact N|]. split.
  - unfold forces.compute_shockwave_impulse; cbv zeta. fold d. fold dist.
    rewrite (proj2 (Rgtb_false dist SHOCKWAVE_RADIUS)) by lra.
    rewrite float_div_ok by lra. cbn [bind]. rewrite N. reflexivity.
  - apply magnitude_scaled.
    + pose proof (magnitude_square d) as S. fold dist in S.
      unfold magnitude_sq in S. clearbody dist. clearbody d.
      unfold dot; simpl.
      replace (x d / dist * (x d / dist) + y d / dist * (y d / dist))
        with ((x d * x d + y d * y d) / (dist * dist)) by (field; lra).
      rewrite <- S. field; lra.
    + unfold SHOCKWAVE_STRENGTH. apply Rlt_le, Rdiv_lt_0_compat; lra.
Qed.

(** At the epicentre the direction, and with it the impulse, is zero. *)
Lemma shockwave_impulse_epicentre ball_pos origin :
  magnitude (sub ball_pos origin) = 0 ->
  normalized (sub ball_pos origin) = Ok (mk 0 0) /\
  forces.compute_shockwave_impulse ball_pos origin = Ok (mk 0 0).
Proof.
  intros Hz.
  assert (N : normalized (sub ball_pos origin) = Ok (mk 0 0)).
  { rewrite normalized_ok. now rewrite (proj2 (Reqb_true _ _) Hz). }
  split; [exact N|].
  unfold forces.compute_shockwave_impulse; cbv zeta.
  destruct (py_max_one (magnitude (sub ball_pos origin))) as [_ Hmax].
  rewrite (proj2 (Rgtb_false _ SHOCKWAVE_RADIUS))
    by (rewrite Hz; unfold SHOCKWAVE_RADIUS; lra).
  rewrite float_div_ok by lra. cbn [bind]. rewrite N. cbn [bind].
  f_equal. apply vec_eq; simpl; lra.
Qed.

(** The scale factor [SHOCKWAVE_STRENGTH / max(dist, 1.0)] does not grow
    with the distance. *)
Lemma shockwave_strength_monotone dist dist' :
  dist <= dist' ->
  SHOCKWAVE_STRENGTH / py_max dist' 1.0 <= SHOCKWAVE_STRENGTH / py_max dist 1.0.
Proof.
  intros Hle.
  destruct (py_max_one dist) as [E H1].
  destruct (py_max_one dist') as [E' H1'].
  assert (M : py_max dist 1.0 <= py_max dist' 1.0).
  { rewrite E, E'. apply Rle_max_compat_r. exact Hle. }
  unfold SHOCKWAVE_STRENGTH, Rdiv.
  apply Rmult_le_compat_l; [lra|].
  apply Rinv_le_contravar; lra.
Qed.

(** C4, amended.  Beyond [SHOCKWAVE_RADIUS] and at the epicentre the impulse
    is the zero vector; in between it is the unit direction scaled by
    [SHOCKWAVE_STRENGTH / max(dist, 1.0)]; and that scale factor is never
    larger at the larger of two distances. *)
Theorem shockwave_impulse_falloff ball_pos origin :
  let d := sub ball_pos origin in
  let dist := magnitude d in
  (dist > SHOCKWAVE_RADIUS ->
   forces.compute_shockwave_impulse ball_pos origin = Ok (mk 0 0)) /\
  (dist = 0 ->
   normalized d = Ok (mk 0 0) /\
   forces.compute_shockwave_impulse ball_pos origin = Ok (mk 0 0)) /\
  (0 < dist -> dist <= SHOCKWAVE_RADIUS ->
   exists n,
     normalized d = Ok n /\
     forces.compute_shockwave_impulse ball_pos origin
     = Ok (mul n (SHOCKWAVE_STRENGTH / py_max dist 1.0))) /\
  (forall farther_pos,
     let dist' := magnitude (sub farther_pos origin) in
     dist <= dist' ->
     SHOCKWAVE_STRENGTH / py_max dist' 1.0
     <= SHOCKWAVE_STRENGTH / py_max dist 1.0).
Proof.
  intros d dist. split; [|split; [|split]].
  - intros Hout. unfold forces.compute_shockwave_impulse; cbv zeta.
    fold d. fold dist. rewrite (proj2 (Rgtb_true _ _) Hout).
    f_equal. apply vec_eq; simpl; lra.
  - apply shockwave_impulse_epicentre.
  - intros Hpos Hin.
    destruct (shockwave_impulse_inside ball_pos origin Hpos Hin)
      as (N & C & _).
    eexists. split; [exact N | exact C].
  - intros farther_pos dist'. apply shockwave_strength_monotone.
Qed.

Lemma shockwave_impulse_falloff_witness :
  (exists n,
     normalized (sub (mk 5 0) (mk 0 0)) = Ok n /\
     forces.compute_shockwave_impulse (mk 5 0) (mk 0 0)
     = Ok (mul n (SHOCKWAVE_STRENGTH
                  / py_max (magnitude (sub (mk 5 0) (mk 0 0))) 1.0))) /\
  SHOCKWAVE_STRENGTH / py_max (magnitude (sub (mk 10 0) (mk 0 0))) 1.0
  <= SHOCKWAVE_STRENGTH / py_max (magnitude (sub (mk 5 0) (mk 0 0))) 1.0.
Proof.
  assert (D : magnitude (sub (mk 5 0) (mk 0 0)) = 5).
  { apply magnitude_eq; [lra|]. unfold magnitude_sq; simpl; lra. }
  assert (D' : magnitude (sub (mk 10 0) (mk 0 0)) = 10).
  { apply magnitude_eq; [lra|]. unfold magnitude_sq; simpl; lra. }
  destruct (shockwave_impulse_falloff (mk 5 0) (mk 0 0)) as (_ & _ & I & F).
  split.
  - apply I; rewrite D; [lra | unfold SHOCKWAVE_RADIUS; lra].
  - apply (F (mk 10 0)). rewrite D, D'. lra.
Defined.

End ShockwaveClaims.

(** * Failure modes *)

Section ErrorClaims.
Import Vector2D.

(** C7, as stated, fails: vector division by zero is not the only call of
    the core that raises.  With a negative mass the square root inside
    [apply_surface_friction] raises [ValueError], and with masses that sum
    to zero the scalar division of the impulse inside [resolve_collision]
    raises [ZeroDivisionError], under exact arithmetic and on binary64
    alike. *)
Lemma other_failure_modes :
  forces.apply_surface_friction (mk 1 0) (-1) = Raise ValueError /\
  collision.resolve_collision
    (mk 0 0) (mk (-1) 0) 1 10 (mk (-10) 0) (mk 0 0) (-1) 10
  = Raise ZeroDivisionError /\
  (B64.resolve_collision
     (B64.mk 0 0) (B64.mk (-1) 0) 1 10 (B64.mk (-10) 0) (B64.mk 0 0) (-1) 10
   = Raise ZeroDivisionError)%float.
Proof.
  split; [|split].
  - unfold forces.apply_surface_friction, math_sqrt. now rcmp.
  - rewrite resolve_collision_eq; cbv zeta. unfold vel_along_normal.
    destruct (contact_apart (mk 0 0) (mk (-10) 0) 10) as [_ ->];
      [lra | unfold magnitude_sq; simpl; lra |].
    unfold dot; simpl. now rcmp.
  - vm_compute. reflexivity.
Qed.

(** C7, amended.  Dividing a vector by zero raises [ZeroDivisionError];
    dividing by anything else returns the component-wise quotient.  The
    degenerate cases do not raise: normalising a vector of zero magnitude
    gives the zero vector, resolving a collision of coincident centres
    returns for positive masses, and a shockwave at the epicentre gives the
    zero impulse.  Within the documented domain nothing else raises
    either: clamping, the wall boost and the shockwave impulse return for
    every input, surface friction returns for a mass that is not negative,
    and from a reachable state so do [update], [apply_shockwave] and
    [spawn_ball]. *)
Theorem division_by_zero_only :
  (forall v, truediv v 0 = Raise ZeroDivisionError) /\
  (forall v s, s <> 0 -> truediv v s = Ok (mk (x v / s) (y v / s))) /\
  (forall v, exists n, normalized v = Ok n) /\
  (forall v, magnitude v = 0 -> normalized v = Ok (mk 0 0)) /\
  (forall p vel_a mass_a radius_a vel_b mass_b radius_b,
     0 < mass_a -> 0 < mass_b ->
     exists r,
       collision.resolve_collision
         p vel_a mass_a radius_a p vel_b mass_b radius_b = Ok r) /\
  (forall p, forces.compute_shockwave_impulse p p = Ok (mk 0 0)) /\
  (forall v m, exists w, clamped v m = Ok w) /\
  (forall v, exists w, forces.compute_wall_boost v = Ok w) /\
  (forall p o, exists i, forces.compute_shockwave_impulse p o = Ok i) /\
  (forall s rt, reachable s rt ->
     (exists s', Simulation.update s = Ok s') /\
     (forall origin, exists s', Simulation.apply_shockwave s origin = Ok s') /\
     (forall position color velocity,
        exists r, Simulation.spawn_ball s position color velocity rt = Ok r)) /\
  (forall v m, 0 <= m -> exists w, forces.apply_surface_friction v m = Ok w).
Proof.
  split; [|split; [|split; [|split; [|split; [|split; [|split; [|split;
    [|split; [|split]]]]]]]]].
  - intros v. unfold truediv. now rewrite float_div_zero.
  - intros v s Hs. unfold truediv. now rewrite !float_div_ok.
  - intros v. rewrite normalized_ok. now eexists.
  - intros v Hv. rewrite normalized_ok.
    now rewrite (proj2 (Reqb_true _ _) Hv).
  - intros p vel_a mass_a radius_a vel_b mass_b radius_b Ha Hb.
    rewrite resolve_collision_eq; cbv zeta.
    rewrite (proj2 (Reqb_false (mass_a + mass_b) 0)) by lra.
    destruct (Rgtb _ 0); now eexists.
  - intros p.
    exact (proj2 (shockwave_impulse_epicentre p p (magnitude_self_sub p))).
  - apply clamped_ok.
  - apply compute_wall_boost_ok.
  - apply compute_shockwave_impulse_ok.
  - apply public_operations_return.
  - intros v m Hm. unfold forces.apply_surface_friction.
    rewrite math_sqrt_ok by exact Hm. cbn [bind]. now eexists.
Qed.

Lemma division_by_zero_only_witness :
  truediv (mk 6 8) 2 = Ok (mk (6 / 2) (8 / 2)) /\
  normalized (mk 0 0) = Ok (mk 0 0) /\
  (exists r,
     collision.resolve_collision
       (mk 5 5) (mk 1 0) 1 5 (mk 5 5) (mk (-1) 0) 1 5 = Ok r) /\
  exists w, forces.apply_surface_friction (mk 3 4) 0 = Ok w.
Proof.
  destruct division_by_zero_only
    as (_ & Hdiv & _ & Hnorm & Hres & _ & _ & _ & _ & _ & Hfric).
  split; [|split; [|split]].
  - apply (Hdiv (mk 6 8) 2). lra.
  - apply (Hnorm (mk 0 0)). apply magnitude_zero; simpl; split; reflexivity.
  - apply (Hres (mk 5 5) (mk 1 0) 1 5 (mk (-1) 0) 1 5); lra.
  - apply (Hfric (mk 3 4) 0). lra.
Defined.

End ErrorClaims.

(** * Simulation *)

Section SpawnClaims.
Import constants.

(** C5. [spawn_ball] checks the position twice against every existing ball,
    first with the average radius [(MIN_RADIUS + MAX_RADIUS) / 2 = 21] and
    then with the radius of the ball just generated.  A rejection by either
    check returns no ball and leaves the simulation as it was; when both
    pass, the new ball is appended to the collection, which grows by one,
    and the ball is returned. *)
Theorem spawn_ball_double_check self position color velocity rt :
  let test_radius := IZR (MIN_RADIUS + MAX_RADIUS) / 2 in
  let ball := fst (Ball.create_random position color velocity rt) in
  let rt' := snd (Ball.create_random position color velocity rt) in
  let overlaps r :=
    Exists (fun b => Vector2D.distance_to position (Ball.position b)
                     < r + Ball.radius b) (Simulation.balls self) in
  test_radius = 21 /\
  (overlaps test_radius ->
   Simulation.spawn_ball self position color velocity rt
   = Ok (None, self, rt)) /\
  (~ overlaps test_radius -> overlaps (Ball.radius ball) ->
   Simulation.spawn_ball self position color velocity rt
   = Ok (None, self, rt')) /\
  (~ overlaps test_radius -> ~ overlaps (Ball.radius ball) ->
   exists self',
     Simulation.spawn_ball self position color velocity rt
     = Ok (Some ball, self', rt') /\
     Simulation.balls self' = Simulation.balls self ++ [ball] /\
     length (Simulation.balls self') = S (length (Simulation.balls self))).
Proof.
  intros test_radius ball rt' overlaps.
  assert (T : test_radius = 21).
  { unfold test_radius, MIN_RADIUS, MAX_RADIUS. simpl. lra. }
  split; [exact T|].
  unfold Simulation.spawn_ball.
  rewrite float_div_ok by lra. cbn [bind]. fold test_radius.
  unfold overlaps.
  destruct (Ball.create_random position color velocity rt) as [b r] eqn:C.
  simpl in ball, rt'. subst ball rt'.
  split; [|split].
  - intros H. apply overlaps_existing_true in H. now rewrite H.
  - intros H1 H2. apply overlaps_existing_false in H1.
    apply overlaps_existing_true in H2. now rewrite H1, H2.
  - intros H1 H2. apply overlaps_existing_false in H1, H2.
    rewrite H1, H2. eexists. split; [reflexivity|].
    simpl. split; [reflexivity|].
    rewrite length_app; simpl. lia.
Qed.

Lemma spawn_ball_double_check_witness :
  let existing :=
    Ball.mk 0 (Vector2D.mk 100 100) (Vector2D.mk 0 0) 20 1 COLOR_BALL_LEFT in
  let self := Simulation.mk [existing] false false 0 [] [] in
  let rt := runtime.mk (fun _ => 0.75) 0 1 in
  let velocity := Some (Vector2D.mk 2 0) in
  let created position :=
    Ball.create_random position COLOR_BALL_LEFT velocity rt in
  Simulation.spawn_ball self (Vector2D.mk 105 100) COLOR_BALL_LEFT velocity rt
  = Ok (None, self, rt) /\
  (Ball.radius (fst (created (Vector2D.mk 142 100))) = 25.5 /\
   Simulation.spawn_ball self (Vector2D.mk 142 100) COLOR_BALL_LEFT velocity rt
   = Ok (None, self, snd (created (Vector2D.mk 142 100)))) /\
  exists self',
    Simulation.spawn_ball self (Vector2D.mk 200 100) COLOR_BALL_LEFT velocity rt
    = Ok (Some (fst (created (Vector2D.mk 200 100))), self',
          snd (created (Vector2D.mk 200 100))) /\
    Simulation.balls self'
    = [existing; fst (created (Vector2D.mk 200 100))] /\
    length (Simulation.balls self') = 2%nat.
Proof.
  intros existing self rt velocity created.
  assert (D : forall px d, 0 <= d -> (px - 100) * (px - 100) = d * d ->
              Vector2D.distance_to (Vector2D.mk px 100) (Vector2D.mk 100 100)
              = d).
  { intros px d Hd Hsq. apply magnitude_eq; [exact Hd|].
    unfold Vector2D.magnitude_sq; simpl. rewrite <- Hsq. ring. }
  assert (Rad : forall p, Ball.radius (fst (created p)) = 25.5).
  { intros p. unfold created. simpl. unfold MIN_RADIUS, MAX_RADIUS. lra. }
  split; [|split].
  - destruct (spawn_ball_double_check self (Vector2D.mk 105 100)
                COLOR_BALL_LEFT velocity rt) as (T & Hpre & _).
    apply Hpre. apply Exists_cons_hd. simpl.
    rewrite (D 105 5) by lra. lra.
  - split; [apply Rad|].
    destruct (spawn_ball_double_check self (Vector2D.mk 142 100)
                COLOR_BALL_LEFT velocity rt) as (T & _ & Hre & _).
    apply Hre.
    + intros X. inversion X as [? ? H | ? ? H]; subst; [|inversion H].
      simpl in H. rewrite (D 142 42) in H by lra. lra.
    + apply Exists_cons_hd. simpl.
      rewrite (D 142 42) by lra. unfold MIN_RADIUS, MAX_RADIUS. lra.
  - destruct (spawn_ball_double_check self (Vector2D.mk 200 100)
                COLOR_BALL_LEFT velocity rt) as (T & _ & _ & Hok).
    destruct Hok as (self' & E & B & L).
    + intros X. inversion X as [? ? H | ? ? H]; subst; [|inversion H].
      simpl in H. rewrite (D 200 100) in H by lra. lra.
    + intros X. inversion X as [? ? H | ? ? H]; subst; [|inversion H].
      simpl in H. rewrite (D 200 100) in H by lra.
      unfold MIN_RADIUS, MAX_RADIUS in H. lra.
    + exists self'. split; [exact E|]. split; [exact B | exact L].
Defined.

End SpawnClaims.

Section PauseClaims.

(** C6. While [paused] is set, [update], called any number of times, hands
    the simulation back unchanged: balls, glow timer, shockwave effects and
    both flags. *)
Theorem update_paused_noop self :
  Simulation.paused self = true ->
  Simulation.update self = Ok self /\
  forall n, update_times n self = Ok self.
Proof.
  intros Hp.
  assert (U : Simulation.update self = Ok self).
  { unfold Simulation.update. now rewrite Hp. }
  split; [exact U|].
  induction n as [|n IH]; simpl; [reflexivity|].
  rewrite U. exact IH.
Qed.

Lemma update_paused_noop_witness :
  let s := Simulation.mk
             [Ball.mk 0 (Vector2D.mk 400 200) (Vector2D.mk 2 0) 20 1 (0, 0, 0)%Z]
             true true 10
             [Simulation.mk_effect (Vector2D.mk 1 1) 3] [] in
  Simulation.update s = Ok s /\ forall n, update_times n s = Ok s.
Proof.
  intros s. apply update_paused_noop. reflexivity.
Defined.

End PauseClaims.

Section GlowClaims.

(** C9. In every state reached through the public operations the glow timer
    is not negative.  An unpaused [update] from such a state returns; if
    some ball hit the left wall in that frame the timer ends at the full
    duration less the end-of-frame decrement, otherwise it ends one below a
    positive old value and stays at [0] from [0]; in each case it is again
    not negative. *)
Theorem wall_glow_timer_decay s rt :
  reachable s rt ->
  0 <= Simulation.wall_glow_timer s /\
  (Simulation.paused s = false ->
   exists s',
     Simulation.update s = Ok s' /\
     Simulation.wall_glow_timer s' =
       (if existsb (hits_left_wall (Simulation.gravity_on s))
             (Simulation.balls s)
        then IZR Simulation.WALL_GLOW_DURATION - 1
        else if Rgtb (Simulation.wall_glow_timer s) 0
             then Simulation.wall_glow_timer s - 1
             else 0) /\
     0 <= Simulation.wall_glow_timer s').
Proof.
  intros Hreach.
  destruct (reachable_invariant s rt Hreach) as (Hpos & (k & Hk & Ht) & _).
  assert (H0 : 0 <= Simulation.wall_glow_timer s).
  { rewrite Ht. apply IZR_le. lia. }
  split; [exact H0|].
  intros Hp.
  destruct (update_ok s Hpos Hp) as (s' & E & _ & T).
  exists s'. split; [exact E|].
  rewrite T; cbv zeta.
  unfold Simulation.WALL_GLOW_DURATION in *.
  destruct (existsb _ _).
  - rewrite (proj2 (Rgtb_true 30 0)) by lra. split; [reflexivity | lra].
  - destruct (Rgtb (Simulation.wall_glow_timer s) 0) eqn:G.
    + split; [reflexivity|].
      apply Rgtb_true in G. rewrite Ht in *. apply lt_IZR in G.
      rewrite <- minus_IZR. apply IZR_le. lia.
    + apply Rgtb_false in G. split; lra.
Qed.

End GlowClaims.

(** * Further properties of the vector type *)

Section VectorProperties.
Import Vector2D.

Lemma unit_direction_dot v :
  magnitude v <> 0 ->
  dot (mk (x v / magnitude v) (y v / magnitude v))
      (mk (x v / magnitude v) (y v / magnitude v)) = 1.
Proof.
  intros Hv. pose proof (magnitude_square v) as S.
  unfold magnitude_sq in S. unfold dot; simpl.
  set (m := magnitude v) in *.
  replace (x v / m * (x v / m) + y v / m * (y v / m))
    with ((x v * x v + y v * y v) / (m * m)) by (field; exact Hv).
  rewrite <- S. field; exact Hv.
Qed.

Lemma normalized_nonzero v :
  magnitude v <> 0 ->
  normalized v = Ok (mk (x v / magnitude v) (y v / magnitude v)).
Proof.
  intros Hv. rewrite normalized_ok.
  now rewrite (proj2 (Reqb_false _ _) Hv).
Qed.

Lemma magnitude_le_sq v m :
  0 <= m -> (magnitude v <= m <-> magnitude_sq v <= m * m).
Proof.
  intros Hm. rewrite <- magnitude_square.
  pose proof (magnitude_nonneg v). split; intros; nra.
Qed.

Lemma clamped_cases v m :
  0 <= m ->
  (magnitude v <= m /\ clamped v m = Ok v) \/
  (m < magnitude v /\
   clamped v m = Ok (mul (mk (x v / magnitude v) (y v / magnitude v)) m)).
Proof.
  intros Hm. unfold clamped.
  destruct (Rleb (magnitude_sq v) (m * m)) eqn:E.
  - apply Rleb_true in E. left. split; [now apply magnitude_le_sq|reflexivity].
  - apply Rleb_false in E. right.
    assert (Hlt : m < magnitude v).
    { apply Rnot_le_lt. intros H. apply E. now apply magnitude_le_sq. }
    split; [exact Hlt|].
    rewrite normalized_nonzero by lra. reflexivity.
Qed.

Lemma magnitude_from_angle angle_rad m :
  magnitude (from_angle angle_rad m) = Rabs m.
Proof.
  unfold magnitude, from_angle; simpl.
  replace (cos angle_rad * m * (cos angle_rad * m)
           + sin angle_rad * m * (sin angle_rad * m))
    with (Rsqr m * (Rsqr (sin angle_rad) + Rsqr (cos angle_rad)))
    by (unfold Rsqr; ring).
  rewrite sin2_cos2, Rmult_1_r. apply sqrt_Rsqr_abs.
Qed.

(** X5. [distance_to] does not depend on the order of the two points, and it
    is zero exactly between equal points. *)
Theorem distance_to_symmetric a b :
  distance_to a b = distance_to b a /\
  (distance_to a b = 0 <-> a = b).
Proof.
  split.
  - unfold distance_to. apply magnitude_eq; [apply magnitude_nonneg|].
    rewrite magnitude_square. unfold magnitude_sq; simpl. ring.
  - unfold distance_to. rewrite magnitude_zero; simpl. split.
    + intros [Hx Hy]. apply vec_eq; lra.
    + intros ->. split; ring.
Qed.

End VectorProperties.

(** * Further properties of the force functions *)

Section ForceProperties.
Import Vector2D constants.

Lemma ln_surface_friction : ln SURFACE_FRICTION < 0.
Proof.
  rewrite <- ln_1. apply ln_increasing; unfold SURFACE_FRICTION; lra.
Qed.

(** The friction factor [SURFACE_FRICTION ** s] lies in [(0, 1]], is below
    [1] for a positive exponent, and shrinks as the exponent grows. *)
Lemma friction_factor_bounds s :
  0 <= s ->
  0 < Rpower SURFACE_FRICTION s <= 1 /\
  (0 < s -> Rpower SURFACE_FRICTION s < 1) /\
  (forall s', s < s' -> Rpower SURFACE_FRICTION s' < Rpower SURFACE_FRICTION s).
Proof.
  intros Hs. pose proof ln_surface_friction as L. unfold Rpower.
  assert (Hlt : 0 < s -> exp (s * ln SURFACE_FRICTION) < 1).
  { intros Hpos. rewrite <- exp_0. apply exp_increasing. nra. }
  split; [split; [apply exp_pos|]|split].
  - destruct Hs as [Hpos | <-]; [apply Rlt_le, Hlt, Hpos|].
    rewrite Rmult_0_l, exp_0. lra.
  - exact Hlt.
  - intros s' Hs'. apply exp_increasing. nra.
Qed.

(** X7. [apply_surface_friction] raises [ValueError] on a negative mass and on
    no other.  Otherwise it multiplies the velocity by a factor that
    depends on the mass only and lies between [0] and [1], and a ball at
    rest stays at rest. *)
Theorem surface_friction_damps mass :
  (mass < 0 ->
   forall velocity,
     forces.apply_surface_friction velocity mass = Raise ValueError) /\
  (0 <= mass ->
   exists f,
     0 <= f <= 1 /\
     (forall velocity,
        forces.apply_surface_friction velocity mass = Ok (mul velocity f)) /\
     forces.apply_surface_friction (mk 0 0) mass = Ok (mk 0 0)).
Proof.
  split.
  - intros Hneg velocity. unfold forces.apply_surface_friction, math_sqrt.
    now rewrite (proj2 (Rltb_true _ _) Hneg).
  - intros Hm.
    destruct (friction_factor_bounds (sqrt mass) (sqrt_pos mass))
      as (Hf & _).
    exists (Rpower SURFACE_FRICTION (sqrt mass)).
    split; [lra|]. split.
    + intros velocity. unfold forces.apply_surface_friction.
      rewrite math_sqrt_ok by exact Hm. reflexivity.
    + unfold forces.apply_surface_friction.
      rewrite math_sqrt_ok by exact Hm. cbn [bind].
      f_equal. apply vec_eq; simpl; ring.
Qed.

Lemma surface_friction_damps_witness :
  forces.apply_surface_friction (mk 10 5) (-4) = Raise ValueError /\
  exists f,
    0 <= f <= 1 /\
    forces.apply_surface_friction (mk 10 5) 4 = Ok (mul (mk 10 5) f).
Proof.
  destruct (surface_friction_damps (-4)) as [N _].
  destruct (surface_friction_damps 4) as [_ H].
  split; [apply N; lra|].
  destruct H as (f & B & E & _); [lra|].
  exists f. split; [exact B | apply E].
Defined.

Lemma dot_direction_scaled v s :
  magnitude v <> 0 ->
  dot (mul (mk (x v / magnitude v) (y v / magnitude v)) s) v
  = s * magnitude v.
Proof.
  intros Hv. pose proof (magnitude_square v) as S.
  unfold magnitude_sq in S. unfold dot; simpl.
  replace (x v / magnitude v * s * x v + y v / magnitude v * s * y v)
    with (s * ((x v * x v + y v * y v) / magnitude v))
    by (field; exact Hv).
  rewrite <- S. field; exact Hv.
Qed.

(** X9. The shockwave impulse always exists and never points towards the
    origin; for a ball inside the radius and off the epicentre it points
    strictly away from it. *)
Theorem shockwave_impulse_outward ball_pos origin :
  let d := sub ball_pos origin in
  exists impulse,
    forces.compute_shockwave_impulse ball_pos origin = Ok impulse /\
    0 <= dot impulse d /\
    (0 < magnitude d -> magnitude d <= SHOCKWAVE_RADIUS ->
     0 < dot impulse d).
Proof.
  intros d.
  destruct (Rle_dec (magnitude d) 0) as [Hz|Hnz].
  - assert (Hz' : magnitude d = 0)
      by (pose proof (magnitude_nonneg d); lra).
    destruct (shockwave_impulse_epicentre ball_pos origin Hz') as [_ E].
    exists (mk 0 0). split; [exact E|].
    unfold dot; simpl. split; [lra|]. intros; lra.
  - apply Rnot_le_lt in Hnz.
    destruct (Rle_dec (magnitude d) SHOCKWAVE_RADIUS) as [Hin|Hout].
    + destruct (shockwave_impulse_inside ball_pos origin Hnz Hin)
        as (_ & E & _).
      fold d in E.
      destruct (py_max_one (magnitude d)) as [_ H1].
      set (s := SHOCKWAVE_STRENGTH / py_max (magnitude d) 1.0) in *.
      assert (Hspos : 0 < s).
      { unfold s, SHOCKWAVE_STRENGTH. apply Rdiv_lt_0_compat; lra. }
      eexists. split; [exact E|].
      assert (D : dot (mul (mk (x d / magnitude d) (y d / magnitude d)) s) d
                  = s * magnitude d) by (apply dot_direction_scaled; lra).
      rewrite D. split; [nra|]. intros _ _. nra.
    + apply Rnot_le_lt in Hout.
      exists (mk 0 0). split.
      * unfold forces.compute_shockwave_impulse; cbv zeta. fold d.
        rewrite (proj2 (Rgtb_true _ _)) by lra.
        f_equal. apply vec_eq; simpl; lra.
      * unfold dot; simpl. split; [lra|]. intros; lra.
Qed.

End ForceProperties.

(** * Further properties of the ball *)

(** Splits on every float comparison of the goal and records each outcome
    as an inequality. *)
Ltac split_comparisons :=
  repeat match goal with
         | |- context [Rleb ?a ?b] =>
             let E := fresh "E" in
             destruct (Rleb a b) eqn:E;
             [apply Rleb_true in E | apply Rleb_false in E]
         | |- context [Rltb ?a ?b] =>
             let E := fresh "E" in
             destruct (Rltb a b) eqn:E;
             [apply Rltb_true in E | apply Rltb_false in E]
         | |- context [Rgeb ?a ?b] =>
             let E := fresh "E" in
             destruct (Rgeb a b) eqn:E;
             [apply Rgeb_true in E | apply Rgeb_false in E]
         | |- context [Rgtb ?a ?b] =>
             let E := fresh "E" in
             destruct (Rgtb a b) eqn:E;
             [apply Rgtb_true in E | apply Rgtb_false in E]
         end.

Section BallProperties.
Import constants.

(** X10. The gravity variant of the wall bounce moves the ball exactly as the
    plain one does and reports the same left-wall hit; its floor flag is
    set exactly when the ball reached the bottom edge while moving down. *)
Theorem handle_wall_bounce_gravity_agrees b width height :
  fst (Ball.handle_wall_bounce_gravity b width height)
  = fst (Ball.handle_wall_bounce b width height) /\
  fst (snd (Ball.handle_wall_bounce_gravity b width height))
  = snd (Ball.handle_wall_bounce b width height) /\
  (snd (snd (Ball.handle_wall_bounce_gravity b width height)) = true <->
   Vector2D.y (Ball.position b) + Ball.radius b >= IZR height /\
   Vector2D.y (Ball.velocity b) > 0).
Proof.
  unfold Ball.handle_wall_bounce_gravity, Ball.handle_wall_bounce.
  split_comparisons; simpl; repeat split; try reflexivity;
    try discriminate; intros; try lra;
    try match goal with H : _ /\ _ |- _ => destruct H; lra end.
Qed.

(** X11. A wall bounce only mirrors velocity components: identity, radius, mass
    and colour stay, and so do the speed and the kinetic energy. *)
Theorem handle_wall_bounce_keeps_energy b width height :
  let b' := fst (Ball.handle_wall_bounce b width height) in
  Ball.oid b' = Ball.oid b /\ Ball.radius b' = Ball.radius b /\
  Ball.mass b' = Ball.mass b /\ Ball.color b' = Ball.color b /\
  Ball.speed b' = Ball.speed b /\
  Ball.kinetic_energy b' = Ball.kinetic_energy b.
Proof.
  unfold Ball.handle_wall_bounce, Ball.speed, Ball.kinetic_energy,
    Vector2D.magnitude, Vector2D.magnitude_sq.
  split_comparisons; simpl; repeat split; try reflexivity;
    try (f_equal; ring).
Qed.

(** X12. The left-wall flag is raised exactly when the ball's left edge is at
    or beyond [x = 0] while it moves left; the ball then sits on the wall
    and moves right. *)
Theorem handle_wall_bounce_hit_left b width height :
  let b' := fst (Ball.handle_wall_bounce b width height) in
  let px := Vector2D.x (Ball.position b) in
  let vx := Vector2D.x (Ball.velocity b) in
  (snd (Ball.handle_wall_bounce b width height) = true <->
   px - Ball.radius b <= 0 /\ vx < 0) /\
  (snd (Ball.handle_wall_bounce b width height) = true ->
   Vector2D.x (Ball.position b') = Ball.radius b /\
   Vector2D.x (Ball.velocity b') = - vx /\
   0 < Vector2D.x (Ball.velocity b')).
Proof.
  unfold Ball.handle_wall_bounce.
  split_comparisons; simpl; repeat split; try reflexivity;
    try discriminate; intros; try lra;
    try match goal with H : _ /\ _ |- _ => destruct H; lra end.
Qed.

(** X13. In a play area wider and taller than the ball, the bounce leaves no
    velocity component pointing into a wall the ball touches, and a second
    bounce right after changes nothing and reports no hit. *)
Theorem handle_wall_bounce_settles b width height :
  2 * Ball.radius b < IZR width ->
  2 * Ball.radius b < IZR height ->
  let b' := fst (Ball.handle_wall_bounce b width height) in
  let r := Ball.radius b in
  (Vector2D.x (Ball.position b') - r <= 0 ->
   0 <= Vector2D.x (Ball.velocity b')) /\
  (Vector2D.x (Ball.position b') + r >= IZR width ->
   Vector2D.x (Ball.velocity b') <= 0) /\
  (Vector2D.y (Ball.position b') - r <= 0 ->
   0 <= Vector2D.y (Ball.velocity b')) /\
  (Vector2D.y (Ball.position b') + r >= IZR height ->
   Vector2D.y (Ball.velocity b') <= 0) /\
  Ball.handle_wall_bounce b' width height = (b', false).
Proof.
  intros Hw Hh.
  unfold Ball.handle_wall_bounce.
  destruct b as [id [px py] [vx vy] r m c]. simpl in *.
  destruct (Rleb (px - r) 0) eqn:E1;
    [apply Rleb_true in E1 | apply Rleb_false in E1];
  (destruct (Rltb vx 0) eqn:E2;
    [apply Rltb_true in E2 | apply Rltb_false in E2]);
  (destruct (Rgeb (px + r) (IZR width)) eqn:E3;
    [apply Rgeb_true in E3 | apply Rgeb_false in E3]);
  (destruct (Rgtb vx 0) eqn:E4;
    [apply Rgtb_true in E4 | apply Rgtb_false in E4]);
  try lra;
  (destruct (Rleb (py - r) 0) eqn:E5;
    [apply Rleb_true in E5 | apply Rleb_false in E5]);
  (destruct (Rltb vy 0) eqn:E6;
    [apply Rltb_true in E6 | apply Rltb_false in E6]);
  (destruct (Rgeb (py + r) (IZR height)) eqn:E7;
    [apply Rgeb_true in E7 | apply Rgeb_false in E7]);
  (destruct (Rgtb vy 0) eqn:E8;
    [apply Rgtb_true in E8 | apply Rgtb_false in E8]);
  try lra; simpl;
  (split; [intros; lra|]); (split; [intros; lra|]);
  (split; [intros; lra|]); (split; [intros; lra|]);
  rcmp; simpl; rcmp; reflexivity.
Qed.

Lemma handle_wall_bounce_settles_witness :
  let b := Ball.mk 0 (Vector2D.mk 5 100) (Vector2D.mk (-10) 0) 10 1 (0, 0, 0)%Z in
  let b' := fst (Ball.handle_wall_bounce b 800 420) in
  Ball.handle_wall_bounce b' 800 420 = (b', false).
Proof.
  intros b b'.
  apply (handle_wall_bounce_settles b 800 420); simpl; lra.
Defined.

End BallProperties.

Section FactoryProperties.
Import constants.

Lemma create_random_spec position color velocity rt :
  fair_samples rt ->
  let b := fst (Ball.create_random position color velocity rt) in
  let rt' := snd (Ball.create_random position color velocity rt) in
  well_formed_ball b /\ 0 < Ball.mass b /\
  Ball.position b = position /\ Ball.color b = color /\
  Ball.oid b = runtime.next_oid rt /\
  runtime.next_oid rt' = S (runtime.next_oid rt) /\
  runtime.samples rt' = runtime.samples rt /\
  match velocity with
  | Some v =>
      Ball.velocity b = v /\
      runtime.cursor rt' = (runtime.cursor rt + 1)%nat
  | None =>
      MIN_SPEED <= Ball.speed b < MAX_SPEED /\
      runtime.cursor rt' = (runtime.cursor rt + 3)%nat
  end.
Proof.
  intros Hf.
  destruct (create_random_ok position color velocity rt Hf) as [Hm _].
  pose proof (Hf (runtime.cursor rt)) as Hu.
  pose proof (Hf (S (S (runtime.cursor rt)))) as Hs.
  revert Hm.
  unfold Ball.create_random, runtime.uniform, runtime.random, well_formed_ball.
  cbv zeta.
  destruct velocity as [v|]; simpl; intros Hm.
  - unfold MIN_RADIUS, MAX_RADIUS.
    repeat split; try reflexivity; try lra; try exact Hm. lia.
  - unfold MIN_RADIUS, MAX_RADIUS.
    repeat split; try reflexivity; try lra; try exact Hm; try lia.
    + unfold Ball.speed; simpl. rewrite magnitude_from_angle.
      unfold MIN_SPEED, MAX_SPEED. rewrite Rabs_pos_eq; lra.
    + unfold Ball.speed; simpl. rewrite magnitude_from_angle.
      unfold MIN_SPEED, MAX_SPEED. rewrite Rabs_pos_eq; lra.
Qed.

(** X14. [create_random] with samples from [[0, 1)]: the radius lies in
    [[MIN_RADIUS, MAX_RADIUS)], the mass is [MASS_DENSITY * pi * r * r] and
    positive, position and colour are the ones given, and the ball gets a
    fresh identity.  A velocity that is passed in is used as it is and one
    sample is drawn; otherwise three are drawn and the velocity is
    [from_angle angle speed] for an angle drawn from [[0, 2 pi)] and a
    speed drawn from [[MIN_SPEED, MAX_SPEED)]. *)
Theorem create_random_ranges position color velocity rt :
  fair_samples rt ->
  let b := fst (Ball.create_random position color velocity rt) in
  let rt' := snd (Ball.create_random position color velocity rt) in
  well_formed_ball b /\ 0 < Ball.mass b /\
  Ball.position b = position /\ Ball.color b = color /\
  Ball.oid b = runtime.next_oid rt /\
  runtime.next_oid rt' = S (runtime.next_oid rt) /\
  runtime.samples rt' = runtime.samples rt /\
  match velocity with
  | Some v =>
      Ball.velocity b = v /\
      runtime.cursor rt' = (runtime.cursor rt + 1)%nat
  | None =>
      (exists angle speed,
         0 <= angle < 2 * PI /\ MIN_SPEED <= speed < MAX_SPEED /\
         Ball.velocity b = Vector2D.from_angle angle speed) /\
      runtime.cursor rt' = (runtime.cursor rt + 3)%nat
  end.
Proof.
  intros Hf.
  destruct (create_random_ok position color velocity rt Hf) as [Hm _].
  pose proof (Hf (runtime.cursor rt)) as Hu.
  pose proof (Hf (S (runtime.cursor rt))) as Ha.
  pose proof (Hf (S (S (runtime.cursor rt)))) as Hs.
  pose proof PI_RGT_0 as Hpi.
  revert Hm.
  unfold Ball.create_random, runtime.uniform, runtime.random, well_formed_ball.
  cbv zeta.
  destruct velocity as [v|]; simpl; intros Hm.
  - unfold MIN_RADIUS, MAX_RADIUS.
    repeat split; try reflexivity; try lra; try exact Hm. lia.
  - unfold MIN_RADIUS, MAX_RADIUS.
    split; [split; [lra | reflexivity]|].
    split; [exact Hm|].
    split; [reflexivity|]. split; [reflexivity|]. split; [reflexivity|].
    split; [reflexivity|]. split; [reflexivity|].
    split; [|lia].
    eexists _, _. split; [|split; [|reflexivity]].
    + split; [nra|nra].
    + unfold MIN_SPEED, MAX_SPEED. lra.
Qed.

Lemma create_random_ranges_witness :
  let rt := runtime.mk (fun _ => 0.5) 0 0 in
  let b := fst (Ball.create_random (Vector2D.mk 400 200) COLOR_BALL_LEFT None rt) in
  well_formed_ball b /\
  exists angle speed,
    0 <= angle < 2 * PI /\ MIN_SPEED <= speed < MAX_SPEED /\
    Ball.velocity b = Vector2D.from_angle angle speed.
Proof.
  intros rt b.
  destruct (create_random_ranges (Vector2D.mk 400 200) COLOR_BALL_LEFT None rt)
    as (W & _ & _ & _ & _ & _ & _ & S & _).
  - intros n; simpl; lra.
  - split; [exact W | exact S].
Defined.

End FactoryProperties.

(** * Further properties of the simulation *)

Section FrameFacts.
Import constants.

Lemma handle_wall_bounce_body b w h :
  body (fst (Ball.handle_wall_bounce b w h)) = body b.
Proof.
  unfold Ball.handle_wall_bounce. split_comparisons; reflexivity.
Qed.

Lemma handle_wall_bounce_gravity_body b w h :
  body (fst (Ball.handle_wall_bounce_gravity b w h)) = body b.
Proof.
  unfold Ball.handle_wall_bounce_gravity. split_comparisons; reflexivity.
Qed.

Lemma clamp_speed_spec b m :
  0 <= m ->
  exists v,
    Ball.clamp_speed b m = Ok (Ball.set_velocity b v) /\
    Vector2D.magnitude v <= m /\
    (Vector2D.magnitude (Ball.velocity b) <= m -> v = Ball.velocity b).
Proof.
  intros Hm. unfold Ball.clamp_speed.
  destruct (clamped_cases (Ball.velocity b) m Hm) as [[Hle E] | [Hlt E]];
    rewrite E; cbn [bind]; eexists; (split; [reflexivity|]).
  - split; [exact Hle | reflexivity].
  - split; [|intros; lra].
    rewrite magnitude_scaled; [lra | apply unit_direction_dot; lra | exact Hm].
Qed.

Lemma cap_nonneg : 0 <= MAX_SPEED_CAP.
Proof. unfold MAX_SPEED_CAP; lra. Qed.

(** One ball of the first loop of [update]: whenever it returns, the ball
    is the same body and its speed is within the cap. *)
Lemma update_ball_frame g b timer b' timer' :
  Simulation.update_ball g b timer = Ok (b', timer') ->
  body b' = body b /\ Ball.speed b' <= MAX_SPEED_CAP.
Proof.
  unfold Simulation.update_ball.
  destruct g.
  - cbn [bind].
    set (b1 := Ball.update_position _).
    assert (B1 : body b1 = body b) by reflexivity.
    pose proof (handle_wall_bounce_gravity_body
                  b1 WINDOW_WIDTH PLAY_AREA_HEIGHT) as B2.
    destruct (Ball.handle_wall_bounce_gravity b1 WINDOW_WIDTH PLAY_AREA_HEIGHT)
      as [b2 [hit_left hit_floor]].
    simpl in B2.
    destruct hit_floor, hit_left; cbn [bind];
      repeat match goal with
             | |- context [forces.compute_wall_boost ?v] =>
                 destruct (compute_wall_boost_ok v) as [? ->]; cbn [bind]
             | |- context [Ball.clamp_speed ?x ?m] =>
                 destruct (clamp_speed_spec x m cap_nonneg) as (? & -> & ? & _);
                 cbn [bind]
             end;
      intros E; inversion E; subst; (split; [|assumption]);
      rewrite <- B1, <- B2; reflexivity.
  - destruct (forces.apply_surface_friction _ _) as [v|e]; cbn [bind];
      [|discriminate].
    set (b1 := Ball.update_position _).
    assert (B1 : body b1 = body b) by reflexivity.
    pose proof (handle_wall_bounce_body b1 WINDOW_WIDTH PLAY_AREA_HEIGHT) as B2.
    destruct (Ball.handle_wall_bounce b1 WINDOW_WIDTH PLAY_AREA_HEIGHT)
      as [b2 hit_left].
    simpl in B2.
    destruct hit_left; cbn [bind];
      repeat match goal with
             | |- context [forces.compute_wall_boost ?v] =>
                 destruct (compute_wall_boost_ok v) as [? ->]; cbn [bind]
             | |- context [Ball.clamp_speed ?x ?m] =>
                 destruct (clamp_speed_spec x m cap_nonneg) as (? & -> & ? & _);
                 cbn [bind]
             end;
      intros E; inversion E; subst; (split; [|assumption]);
      rewrite <- B1, <- B2; reflexivity.
Qed.

Lemma update_balls_frame g bs timer bs' timer' :
  Simulation.update_balls g bs timer = Ok (bs', timer') ->
  map body bs' = map body bs /\
  Forall (fun b => Ball.speed b <= MAX_SPEED_CAP) bs'.
Proof.
  revert timer bs' timer'.
  induction bs as [|b rest IH]; intros timer bs' timer'; simpl.
  - intros E; inversion E; subst. split; [reflexivity | constructor].
  - destruct (Simulation.update_ball g b timer) as [[b1 t1]|e] eqn:Eb;
      cbn [bind]; [|discriminate].
    destruct (Simulation.update_balls g rest t1) as [[rest1 t2]|e] eqn:Er;
      cbn [bind]; [|discriminate].
    intros E; inversion E; subst.
    destruct (update_ball_frame _ _ _ _ _ Eb) as [B S].
    destruct (IH _ _ _ Er) as [Bs Ss].
    simpl. split; [now rewrite B, Bs | now constructor].
Qed.

Lemma map_list_put {A B} (f : A -> B) l i a :
  map f (list_put l i a) = list_put (map f l) i (f a).
Proof.
  revert i; induction l as [|b rest IH]; intros [|i]; simpl; auto.
  now rewrite IH.
Qed.

Lemma list_put_same {A} (l : list A) i a :
  nth_error l i = Some a -> list_put l i a = l.
Proof.
  revert i; induction l as [|b rest IH]; intros [|i]; simpl;
    try discriminate.
  - now intros [= ->].
  - intros H. now rewrite IH.
Qed.

Lemma list_get_Ok {A} (l : list A) i a :
  list_get l i = Ok a <-> nth_error l i = Some a.
Proof.
  unfold list_get. destruct (nth_error l i); split; intros H;
    inversion H; reflexivity.
Qed.

Lemma collide_pair_body i j bs bs' :
  Simulation.collide_pair i j bs = Ok bs' -> map body bs' = map body bs.
Proof.
  unfold Simulation.collide_pair.
  destruct (list_get bs i) as [a|e] eqn:Ea; cbn [bind]; [|discriminate].
  destruct (list_get bs j) as [b|e] eqn:Eb; cbn [bind]; [|discriminate].
  apply list_get_Ok in Ea, Eb.
  destruct (collision.detect_collision _ _ _ _);
    [|intros E; inversion E; reflexivity].
  destruct (collision.resolve_collision _ _ _ _ _ _ _ _)
    as [[[[va vb] pa] pb]|e]; cbn [bind]; [|discriminate].
  intros E; inversion E; subst.
  rewrite !map_list_put.
  change (body (Ball.set_position (Ball.set_velocity a va) pa)) with (body a).
  change (body (Ball.set_position (Ball.set_velocity b vb) pb)) with (body b).
  rewrite (list_put_same (map body bs) i (body a))
    by (now apply map_nth_error).
  apply list_put_same. now apply map_nth_error.
Qed.

Lemma for_each_invariant {A S} (I : S -> Prop)
    (step : A -> S -> result S) xs :
  (forall x s s', I s -> step x s = Ok s' -> I s') ->
  forall s s', I s -> for_each xs step s = Ok s' -> I s'.
Proof.
  intros Hstep. induction xs as [|x rest IH]; intros s s' Hs; simpl.
  - intros E; inversion E; subst; exact Hs.
  - destruct (step x s) as [s1|e] eqn:E1; cbn [bind]; [|discriminate].
    apply IH. eapply Hstep; eauto.
Qed.

Lemma pairwise_collisions_body bs bs' :
  Simulation.pairwise_collisions bs = Ok bs' -> map body bs' = map body bs.
Proof.
  unfold Simulation.pairwise_collisions; cbv zeta.
  apply (for_each_invariant (fun l => map body l = map body bs)); [|reflexivity].
  intros i l l' Hl.
  apply (for_each_invariant (fun l => map body l = map body bs)); [|exact Hl].
  intros j l1 l2 Hl1 E. rewrite <- Hl1. exact (collide_pair_body i j l1 l2 E).
Qed.

Lemma shock_balls_frame origin bs bs' :
  Simulation.shock_balls origin bs = Ok bs' ->
  Forall2
    (fun b b' =>
       body b' = body b /\ Ball.position b' = Ball.position b /\
       Ball.speed b' <= MAX_SPEED_CAP /\
       (Vector2D.distance_to (Ball.position b) origin > SHOCKWAVE_RADIUS ->
        Ball.speed b <= MAX_SPEED_CAP ->
        Ball.velocity b' = Ball.velocity b))
    bs bs'.
Proof.
  revert bs'. induction bs as [|b rest IH]; intros bs'; simpl.
  - intros E; inversion E; constructor.
  - destruct (forces.compute_shockwave_impulse (Ball.position b) origin)
      as [i|e] eqn:Ei; cbn [bind]; [|discriminate].
    destruct (clamp_speed_spec (Ball.apply_impulse b i) MAX_SPEED_CAP cap_nonneg)
      as (v & -> & Hv & Hsame).
    cbn [bind].
    destruct (Simulation.shock_balls origin rest) as [rest'|e];
      cbn [bind]; [|discriminate].
    intros E; inversion E; subst. constructor; [|now apply IH].
    repeat split; try assumption.
    intros Hfar Hslow.
    unfold forces.compute_shockwave_impulse in Ei; cbv zeta in Ei.
    unfold Vector2D.distance_to in Hfar.
    rewrite (proj2 (Rgtb_true _ _) Hfar) in Ei. inversion Ei; subst.
    assert (V : Vector2D.add (Ball.velocity b) (Vector2D.mk 0.0 0.0)
                = Ball.velocity b) by (apply vec_eq; simpl; lra).
    simpl in Hsame |- *. rewrite V in Hsame. apply Hsame. exact Hslow.
Qed.

End FrameFacts.

Section SimulationInvariants.
Import constants.

(** The two ways [spawn_ball] returns. *)
Lemma spawn_ball_cases s position color velocity rt r s' rt' :
  Simulation.spawn_ball s position color velocity rt = Ok (r, s', rt') ->
  let ball := fst (Ball.create_random position color velocity rt) in
  let rt1 := snd (Ball.create_random position color velocity rt) in
  (r = None /\ s' = s /\ (rt' = rt \/ rt' = rt1)) \/
  (r = Some ball /\ rt' = rt1 /\
   Simulation.overlaps_existing position (Ball.radius ball)
     (Simulation.balls s) = false /\
   s' = Simulation.mk (Simulation.balls s ++ [ball])
          (Simulation.gravity_on s) (Simulation.paused s)
          (Simulation.wall_glow_timer s) (Simulation.shockwave_effects s)
          (Simulation._initial_balls s ++
             [(Ball.position ball, Ball.velocity ball, Ball.radius ball,
               Ball.color ball)])).
Proof.
  unfold Simulation.spawn_ball.
  rewrite float_div_ok by lra. cbn [bind].
  destruct (Simulation.overlaps_existing position _ (Simulation.balls s)).
  - intros E; inversion E; subst. left. auto.
  - destruct (Ball.create_random position color velocity rt) as [b rt1].
    cbn [fst snd].
    destruct (Simulation.overlaps_existing position (Ball.radius b)
                (Simulation.balls s)) eqn:O.
    + intros E; inversion E; subst. left. auto.
    + intros E; inversion E; subst. right. auto.
Qed.

Lemma body_well_formed bs bs' :
  map body bs' = map body bs ->
  Forall well_formed_ball bs -> Forall well_formed_ball bs'.
Proof.
  revert bs'. induction bs as [|b rest IH]; intros [|b' rest']; simpl;
    try discriminate; intros E H; [constructor|].
  inversion E as [[Eo Er Em Ec Erest]]. inversion H; subst.
  constructor; [|now apply IH].
  unfold well_formed_ball in *. now rewrite Er, Em.
Qed.

Lemma body_oids bs bs' :
  map body bs' = map body bs -> map Ball.oid bs' = map Ball.oid bs.
Proof.
  intros E.
  assert (H : forall l, map Ball.oid l
                        = map (fun t => fst (fst (fst t))) (map body l)).
  { intros l. rewrite map_map. reflexivity. }
  now rewrite !H, E.
Qed.

Lemma Forall2_body {P : Ball.t -> Ball.t -> Prop} bs bs' :
  Forall2 (fun b b' => body b' = body b /\ P b b') bs bs' ->
  map body bs' = map body bs.
Proof.
  induction 1 as [|b b' rest rest' [B _] _ IH]; simpl; [reflexivity|].
  now rewrite B, IH.
Qed.

Lemma oids_below bs bs' n :
  map Ball.oid bs' = map Ball.oid bs ->
  Forall (fun b => (Ball.oid b < n)%nat) bs ->
  Forall (fun b => (Ball.oid b < n)%nat) bs'.
Proof.
  intros E H.
  assert (G : forall l, Forall (fun b => (Ball.oid b < n)%nat) l <->
                        Forall (fun i => (i < n)%nat) (map Ball.oid l)).
  { intros l. rewrite Forall_map. reflexivity. }
  apply G. rewrite E. now apply G.
Qed.

Lemma age_effects_live effects :
  Forall live_effect effects ->
  Forall live_effect (Simulation.age_effects effects).
Proof.
  induction 1 as [|e rest He _ IH]; simpl; [constructor|].
  destruct (Z.ltb_spec (Simulation.age e + 1)
              Simulation.SHOCKWAVE_VISUAL_DURATION); [|exact IH].
  constructor; [|exact IH].
  unfold live_effect in *; simpl. lia.
Qed.

Lemma list_remove_incl bs ball b :
  In b (Simulation.list_remove bs ball) -> In b bs.
Proof.
  induction bs as [|b0 rest IH]; simpl; [auto|].
  destruct (Nat.eqb _ _); simpl; intuition.
Qed.

Lemma list_remove_NoDup bs ball :
  NoDup (map Ball.oid bs) ->
  NoDup (map Ball.oid (Simulation.list_remove bs ball)).
Proof.
  induction bs as [|b0 rest IH]; simpl; intros H; [constructor|].
  inversion H as [|? ? Hnot Hrest]; subst.
  destruct (Nat.eqb _ _); [exact Hrest|].
  simpl. constructor; [|now apply IH].
  intros Hin. apply Hnot. apply in_map_iff in Hin.
  destruct Hin as (b & Eb & Hb). apply in_map_iff.
  exists b. split; [exact Eb|]. eapply list_remove_incl; eauto.
Qed.

Lemma NoDup_snoc {A} (l : list A) x :
  ~ In x l -> NoDup l -> NoDup (l ++ [x]).
Proof.
  intros Hx H. induction H as [|y rest Hy _ IH]; simpl.
  - constructor; [intros [] | constructor].
  - constructor.
    + rewrite in_app_iff. simpl. intros [Hin | [-> | []]]; [contradiction|].
      apply Hx. now left.
    + apply IH. intros Hin. apply Hx. now right.
Qed.

(** What every reachable state satisfies besides the positive masses. *)
Lemma reachable_bodies s rt :
  reachable s rt ->
  Forall well_formed_ball (Simulation.balls s) /\
  NoDup (map Ball.oid (Simulation.balls s)) /\
  Forall (fun b => (Ball.oid b < runtime.next_oid rt)%nat)
         (Simulation.balls s) /\
  Forall live_effect (Simulation.shockwave_effects s) /\
  fair_samples rt.
Proof.
  induction 1 as
    [ rt Hf
    | s rt position color velocity ball s' rt' _ (Hw & Hn & Hb & He & Hf) Hspawn
    | s rt s' _ (Hw & Hn & Hb & He & Hf) Hupd
    | s rt ball _ (Hw & Hn & Hb & He & Hf)
    | s rt _ (Hw & Hn & Hb & He & Hf)
    | s rt origin s' _ (Hw & Hn & Hb & He & Hf) Hshock
    | s rt _ (Hw & Hn & Hb & He & Hf)
    | s rt _ (Hw & Hn & Hb & He & Hf) ].
  - simpl. split; [constructor|]. split; [constructor|].
    split; [constructor|]. split; [constructor | exact Hf].
  - destruct (create_random_spec position color velocity rt Hf)
      as (Cw & _ & _ & _ & Co & Cn & Cs & _).
    assert (Hf1 : fair_samples
                    (snd (Ball.create_random position color velocity rt))).
    { intros n. rewrite Cs. apply Hf. }
    assert (Hb1 : Forall
              (fun b => (Ball.oid b
                         < runtime.next_oid
                             (snd (Ball.create_random position color velocity rt)))%nat)
              (Simulation.balls s)).
    { rewrite Cn. eapply Forall_impl; [|exact Hb]. simpl. intros; lia. }
    destruct (spawn_ball_cases _ _ _ _ _ _ _ _ Hspawn)
      as [(_ & -> & [-> | ->]) | (_ & -> & _ & ->)]; simpl.
    + auto.
    + auto.
    + split; [|split; [|split; [|split; [exact He | exact Hf1]]]].
      * apply Forall_app. split; [exact Hw | now constructor].
      * rewrite map_app. simpl. apply NoDup_snoc; [|exact Hn].
        rewrite Co. intros Hin. apply in_map_iff in Hin.
        destruct Hin as (b & Eb & Hin).
        rewrite Forall_forall in Hb. specialize (Hb b Hin). lia.
      * apply Forall_app. split; [exact Hb1|]. constructor; [|constructor].
        rewrite Co, Cn. lia.
  - unfold Simulation.update in Hupd.
    destruct (Simulation.paused s); [inversion Hupd; subst; auto|].
    destruct (Simulation.update_balls _ _ _) as [[bs1 t1]|e] eqn:E1;
      cbn [bind] in Hupd; [|discriminate].
    destruct (Simulation.pairwise_collisions bs1) as [bs2|e] eqn:E2;
      cbn [bind] in Hupd; [|discriminate].
    inversion Hupd; subst; simpl.
    assert (B : map body bs2 = map body (Simulation.balls s)).
    { rewrite (pairwise_collisions_body _ _ E2).
      apply (update_balls_frame _ _ _ _ _ E1). }
    pose proof (body_oids _ _ B) as O.
    split; [|split; [|split; [|split; [|exact Hf]]]].
    + eapply body_well_formed; eauto.
    + now rewrite O.
    + eapply oids_below; eauto.
    + now apply age_effects_live.
  - unfold Simulation.remove_ball. destruct (existsb _ _); simpl; auto.
    split; [|split; [|split; [|split; [exact He | exact Hf]]]].
    + now apply list_remove_Forall.
    + now apply list_remove_NoDup.
    + now apply list_remove_Forall.
  - simpl. split; [constructor|]. split; [constructor|].
    split; [constructor|]. split; [constructor | exact Hf].
  - unfold Simulation.apply_shockwave in Hshock.
    destruct (Simulation.shock_balls origin (Simulation.balls s))
      as [bs'|e] eqn:E; cbn [bind] in Hshock; [|discriminate].
    inversion Hshock; subst; simpl.
    pose proof (Forall2_body _ _ (shock_balls_frame _ _ _ E)) as B.
    pose proof (body_oids _ _ B) as O.
    split; [|split; [|split; [|split; [|exact Hf]]]].
    + eapply body_well_formed; eauto.
    + now rewrite O.
    + eapply oids_below; eauto.
    + apply Forall_app. split; [exact He|]. constructor; [|constructor].
      unfold live_effect, Simulation.SHOCKWAVE_VISUAL_DURATION; simpl. lia.
  - simpl; auto.
  - simpl; auto.
Qed.

End SimulationInvariants.

Section SimulationProperties.
Import constants.

(** The example state is what the first [spawn_ball] leaves, and is
    reachable. *)
Lemma demo_spawn_at position velocity :
  Simulation.spawn_ball Simulation.init position COLOR_BALL_LEFT
    (Some velocity) demo_runtime
  = Ok (Some (demo_ball position velocity), demo_state position velocity,
        demo_runtime_next).
Proof.
  unfold Simulation.spawn_ball. rewrite float_div_ok by lra. reflexivity.
Qed.

Lemma demo_state_reachable position velocity :
  reachable (demo_state position velocity) demo_runtime_next.
Proof.
  eapply reach_spawn; [|apply demo_spawn_at].
  apply reach_init. intros n; simpl; lra.
Qed.

(** X17. In every reachable state each ball has a radius in
    [[MIN_RADIUS, MAX_RADIUS)] and the mass [MASS_DENSITY * pi * r * r], no
    two balls are the same object, and every shockwave visual has an age in
    [[0, SHOCKWAVE_VISUAL_DURATION)]. *)
Theorem reachable_well_formed s rt :
  reachable s rt ->
  Forall well_formed_ball (Simulation.balls s) /\
  NoDup (map Ball.oid (Simulation.balls s)) /\
  Forall live_effect (Simulation.shockwave_effects s).
Proof.
  intros H. destruct (reachable_bodies s rt H) as (Hw & Hn & _ & He & _).
  auto.
Qed.

Lemma reachable_well_formed_witness :
  exists s,
    Simulation.apply_shockwave
      (demo_state (Vector2D.mk 400 200) (Vector2D.mk 2 0))
      (Vector2D.mk 300 200) = Ok s /\
    length (Simulation.balls s) = 1%nat /\
    Simulation.shockwave_effects s
    = [Simulation.mk_effect (Vector2D.mk 300 200) 0] /\
    Forall well_formed_ball (Simulation.balls s) /\
    NoDup (map Ball.oid (Simulation.balls s)) /\
    Forall live_effect (Simulation.shockwave_effects s).
Proof.
  pose proof (demo_state_reachable (Vector2D.mk 400 200) (Vector2D.mk 2 0))
    as R.
  destruct (public_operations_return _ _ R) as (_ & Hs & _).
  destruct (Hs (Vector2D.mk 300 200)) as [s E].
  exists s. split; [exact E|].
  pose proof (reachable_well_formed s demo_runtime_next
                (reach_shockwave _ _ _ _ R E)) as W.
  unfold Simulation.apply_shockwave in E.
  destruct (Simulation.shock_balls _ _) as [bs|e] eqn:B;
    cbn [bind] in E; [|discriminate].
  pose proof (Forall2_length (shock_balls_frame _ _ _ B)) as L.
  inversion E; subst s. clear B E. simpl in *.
  split; [symmetry; exact L | split; [reflexivity | exact W]].
Defined.

(** X18. [update] writes positions, velocities, the glow timer and the effect
    list only: the balls stay the same bodies in the same order (identity,
    radius, mass, colour), and the mode flags and the saved initial states
    are untouched. *)
Theorem update_keeps_bodies s s' :
  Simulation.update s = Ok s' ->
  map body (Simulation.balls s') = map body (Simulation.balls s) /\
  length (Simulation.balls s') = length (Simulation.balls s) /\
  Simulation.gravity_on s' = Simulation.gravity_on s /\
  Simulation.paused s' = Simulation.paused s /\
  Simulation._initial_balls s' = Simulation._initial_balls s.
Proof.
  unfold Simulation.update.
  destruct (Simulation.paused s) eqn:P.
  - intros E; inversion E; subst. rewrite P. auto.
  - destruct (Simulation.update_balls _ _ _) as [[bs1 t1]|e] eqn:E1;
      cbn [bind]; [|discriminate].
    destruct (Simulation.pairwise_collisions bs1) as [bs2|e] eqn:E2;
      cbn [bind]; [|discriminate].
    intros E; inversion E; subst; simpl.
    assert (B : map body bs2 = map body (Simulation.balls s)).
    { rewrite (pairwise_collisions_body _ _ E2).
      apply (update_balls_frame _ _ _ _ _ E1). }
    split; [exact B|]. split; [|auto].
    rewrite <- (length_map body bs2), B. apply length_map.
Qed.

Lemma update_keeps_bodies_witness :
  exists s',
    Simulation.update (demo_state (Vector2D.mk 400 200) (Vector2D.mk 2 0))
    = Ok s' /\
    map body (Simulation.balls s')
    = [body (demo_ball (Vector2D.mk 400 200) (Vector2D.mk 2 0))] /\
    length (Simulation.balls s') = 1%nat.
Proof.
  destruct (public_operations_return _ _
              (demo_state_reachable (Vector2D.mk 400 200) (Vector2D.mk 2 0)))
    as ([s' E] & _).
  exists s'. split; [exact E|].
  destruct (update_keeps_bodies _ _ E) as (B & L & _).
  split; [exact B | exact L].
Defined.

(** In the example frame below the ball starts with its left edge on the
    wall and moves left: the frame counts as a left-wall hit. *)
Lemma demo_hits_left_wall :
  hits_left_wall false (demo_ball (Vector2D.mk 12 200) (Vector2D.mk (-2) 0))
  = true.
Proof.
  unfold hits_left_wall, forced_velocity, demo_ball.
  unfold forces.apply_surface_friction.
  set (b := fst (Ball.create_random _ _ _ _)).
  assert (Hm : 0 <= Ball.mass b).
  { unfold b; simpl. unfold MASS_DENSITY, MIN_RADIUS, MAX_RADIUS.
    pose proof PI_RGT_0. nra. }
  rewrite math_sqrt_ok by exact Hm. cbn [bind].
  destruct (friction_factor_bounds (sqrt (Ball.mass b)) (sqrt_pos _))
    as ((Hf & _) & _).
  set (f := Rpower SURFACE_FRICTION (sqrt (Ball.mass b))) in *.
  clearbody f. unfold b. simpl.
  unfold Ball.handle_wall_bounce; simpl.
  unfold MIN_RADIUS, MAX_RADIUS.
  rewrite (proj2 (Rleb_true _ _)) by nra.
  rewrite (proj2 (Rltb_true _ _)) by nra.
  cbn [andb].
  match goal with
  | |- snd (let '(vy, py) := ?c in _) = true => destruct c
  end.
  reflexivity.
Qed.

Lemma wall_glow_timer_decay_witness :
  let ball := demo_ball (Vector2D.mk 12 200) (Vector2D.mk (-2) 0) in
  let s1 := demo_state (Vector2D.mk 12 200) (Vector2D.mk (-2) 0) in
  Simulation.spawn_ball Simulation.init (Vector2D.mk 12 200) COLOR_BALL_LEFT
    (Some (Vector2D.mk (-2) 0)) demo_runtime
  = Ok (Some ball, s1, demo_runtime_next) /\
  Simulation.wall_glow_timer s1 = 0 /\
  exists s2 s3,
    Simulation.update s1 = Ok s2 /\
    Simulation.wall_glow_timer s2 = 30 - 1 /\
    Simulation.balls (Simulation.remove_ball s2 ball) = [] /\
    Simulation.update (Simulation.remove_ball s2 ball) = Ok s3 /\
    Simulation.wall_glow_timer s3 = 30 - 1 - 1 /\
    0 <= Simulation.wall_glow_timer s3.
Proof.
  intros ball s1.
  split; [apply demo_spawn_at|]. split; [simpl; lra|].
  pose proof (demo_state_reachable (Vector2D.mk 12 200) (Vector2D.mk (-2) 0))
    as R1. fold s1 in R1.
  destruct (wall_glow_timer_decay s1 demo_runtime_next R1) as [_ H1].
  destruct (H1 eq_refl) as (s2 & E2 & T2 & _).
  assert (T2' : Simulation.wall_glow_timer s2 = 30 - 1).
  { rewrite T2. unfold s1, demo_state. cbn [Simulation.balls Simulation.gravity_on existsb].
    rewrite demo_hits_left_wall. reflexivity. }
  assert (B2 : map body (Simulation.balls s2) = [body ball]).
  { revert E2. unfold Simulation.update. cbn [s1 demo_state Simulation.paused].
    destruct (Simulation.update_balls _ _ _) as [[bs1 t1]|e] eqn:U;
      cbn [bind]; [|discriminate].
    destruct (Simulation.pairwise_collisions bs1) as [bs2|e] eqn:P;
      cbn [bind]; [|discriminate].
    intros E; inversion E; subst s2. cbn [Simulation.balls].
    rewrite (pairwise_collisions_body _ _ P).
    exact (proj1 (update_balls_frame _ _ _ _ _ U)). }
  set (s2r := Simulation.remove_ball s2 ball).
  assert (Br : Simulation.balls s2r = [] /\
               Simulation.wall_glow_timer s2r = 30 - 1 /\
               Simulation.paused s2r = false /\
               Simulation.gravity_on s2r = false).
  { assert (P2 : Simulation.paused s2 = false /\
                 Simulation.gravity_on s2 = false).
    { revert E2. unfold Simulation.update. cbn [s1 demo_state Simulation.paused].
      destruct (Simulation.update_balls _ _ _) as [[bs1 t1]|e];
        cbn [bind]; [|discriminate].
      destruct (Simulation.pairwise_collisions bs1) as [bs2|e];
        cbn [bind]; [|discriminate].
      intros E; inversion E; subst s2. split; reflexivity. }
    unfold s2r, Simulation.remove_ball.
    destruct (Simulation.balls s2) as [|b2 [|b3 rest]] eqn:L;
      try discriminate B2.
    simpl in B2. inversion B2 as [[Ho Hr Hmass Hc]].
    cbn [existsb Simulation.list_remove]. rewrite Ho, Nat.eqb_refl.
    cbn [orb Simulation.balls Simulation.wall_glow_timer Simulation.paused
         Simulation.gravity_on].
    split; [reflexivity|]. split; [exact T2'|]. exact P2. }
  destruct Br as (Bn & Tr & Pr & Gr).
  assert (R2 : reachable s2r demo_runtime_next).
  { apply reach_remove. exact (reach_update _ _ _ R1 E2). }
  destruct (wall_glow_timer_decay s2r demo_runtime_next R2) as [_ H2].
  destruct (H2 Pr) as (s3 & E3 & T3 & P3).
  exists s2, s3. split; [exact E2|]. split; [exact T2'|].
  split; [exact Bn|]. split; [exact E3|]. split; [|exact P3].
  rewrite T3, Bn, Tr. cbn [existsb].
  rewrite (proj2 (Rgtb_true _ _)) by lra. reflexivity.
Defined.

Lemma shock_balls_total origin bs :
  exists bs', Simulation.shock_balls origin bs = Ok bs'.
Proof.
  induction bs as [|b rest [rest' IH]]; simpl; [now eexists|].
  destruct (compute_shockwave_impulse_ok (Ball.position b) origin) as [i ->].
  cbn [bind].
  destruct (clamp_speed_ok (Ball.apply_impulse b i) MAX_SPEED_CAP) as [v ->].
  cbn [bind]. rewrite IH. cbn [bind]. now eexists.
Qed.

(** X19. [apply_shockwave] always returns.  Each ball stays the same body at
    the same place; a ball beyond [SHOCKWAVE_RADIUS] whose velocity passes
    the test of [clamped] against [MAX_SPEED_CAP] keeps its velocity.  One
    visual of age [0] is appended; timer and flags are untouched. *)
Theorem apply_shockwave_effect s origin :
  exists s',
    Simulation.apply_shockwave s origin = Ok s' /\
    Forall2
      (fun b b' =>
         body b' = body b /\ Ball.position b' = Ball.position b /\
         (Vector2D.distance_to (Ball.position b) origin > SHOCKWAVE_RADIUS ->
          Vector2D.magnitude_sq (Ball.velocity b)
          <= MAX_SPEED_CAP * MAX_SPEED_CAP ->
          Ball.velocity b' = Ball.velocity b))
      (Simulation.balls s) (Simulation.balls s') /\
    Simulation.shockwave_effects s'
    = Simulation.shockwave_effects s ++ [Simulation.mk_effect origin 0] /\
    Simulation.wall_glow_timer s' = Simulation.wall_glow_timer s /\
    Simulation.gravity_on s' = Simulation.gravity_on s /\
    Simulation.paused s' = Simulation.paused s.
Proof.
  unfold Simulation.apply_shockwave.
  destruct (shock_balls_total origin (Simulation.balls s)) as [bs' E].
  rewrite E. cbn [bind]. eexists. split; [reflexivity|]. simpl.
  split; [|auto].
  eapply Forall2_impl; [|exact (shock_balls_frame _ _ _ E)].
  intros b b' (Hb & Hp & _ & Hv).
  split; [exact Hb|]. split; [exact Hp|].
  intros Hfar Hslow. apply Hv; [exact Hfar|].
  apply magnitude_le_sq; [apply cap_nonneg | exact Hslow].
Qed.

(** X20. No two bodies are created overlapping: a ball that [spawn_ball]
    returns from a reachable state sits at the requested position, is
    appended to the collection, and passed the distance test of
    [spawn_ball] against every ball that was already there. *)
Theorem spawn_ball_no_overlap s rt position color velocity ball s' rt' :
  reachable s rt ->
  Simulation.spawn_ball s position color velocity rt
  = Ok (Some ball, s', rt') ->
  Ball.position ball = position /\
  well_formed_ball ball /\
  Simulation.balls s' = Simulation.balls s ++ [ball] /\
  Forall
    (fun b =>
       ~ Vector2D.distance_to position (Ball.position b)
         < Ball.radius ball + Ball.radius b)
    (Simulation.balls s).
Proof.
  intros Hreach Hspawn.
  destruct (reachable_bodies s rt Hreach) as (Hw & _ & _ & _ & Hf).
  destruct (create_random_spec position color velocity rt Hf)
    as (Cw & _ & Cp & _).
  destruct (spawn_ball_cases _ _ _ _ _ _ _ _ Hspawn)
    as [(Habs & _) | (Eb & _ & O & ->)]; [discriminate|].
  inversion Eb; subst ball. clear Eb.
  set (ball := fst (Ball.create_random position color velocity rt)) in *.
  split; [exact Cp|]. split; [exact Cw|]. split; [reflexivity|].
  apply overlaps_existing_false in O.
  apply Forall_forall. intros b Hb Hlt. apply O.
  apply Exists_exists. exists b. split; assumption.
Qed.

Lemma demo_spawn :
  exists ball s',
    Simulation.spawn_ball Simulation.init (Vector2D.mk 400 200)
      COLOR_BALL_LEFT (Some (Vector2D.mk 2 0)) demo_runtime
    = Ok (Some ball, s',
          snd (Ball.create_random (Vector2D.mk 400 200) COLOR_BALL_LEFT
                 (Some (Vector2D.mk 2 0)) demo_runtime)).
Proof.
  unfold Simulation.spawn_ball. rewrite float_div_ok by lra. cbn [bind].
  simpl Simulation.overlaps_existing. cbv iota.
  destruct (Ball.create_random _ _ _ _) as [b r]. simpl. now eexists _, _.
Defined.

Lemma demo_reachable : reachable Simulation.init demo_runtime.
Proof. apply reach_init. intros n; simpl; lra. Qed.

Lemma spawn_ball_no_overlap_witness :
  exists ball s' rt',
    Simulation.spawn_ball
      (demo_state (Vector2D.mk 400 200) (Vector2D.mk 2 0))
      (Vector2D.mk 500 200) COLOR_BALL_LEFT (Some (Vector2D.mk (-2) 0))
      demo_runtime_next
    = Ok (Some ball, s', rt') /\
    Ball.position ball = Vector2D.mk 500 200 /\
    well_formed_ball ball /\
    Simulation.balls s'
    = [demo_ball (Vector2D.mk 400 200) (Vector2D.mk 2 0); ball] /\
    ~ Vector2D.distance_to (Vector2D.mk 500 200) (Vector2D.mk 400 200)
      < Ball.radius ball
        + Ball.radius (demo_ball (Vector2D.mk 400 200) (Vector2D.mk 2 0)).
Proof.
  pose proof (demo_state_reachable (Vector2D.mk 400 200) (Vector2D.mk 2 0))
    as R.
  assert (D : Vector2D.distance_to (Vector2D.mk 500 200) (Vector2D.mk 400 200)
              = 100).
  { apply magnitude_eq; [lra|]. unfold Vector2D.magnitude_sq; simpl; lra. }
  assert (O : forall r, r <= 30 ->
              Simulation.overlaps_existing (Vector2D.mk 500 200) r
                (Simulation.balls
                   (demo_state (Vector2D.mk 400 200) (Vector2D.mk 2 0)))
              = false).
  { intros r Hr. simpl. rewrite D.
    rewrite (proj2 (Rltb_false _ _)); [reflexivity|].
    unfold MIN_RADIUS, MAX_RADIUS. lra. }
  assert (E : exists ball s' rt',
              Simulation.spawn_ball
                (demo_state (Vector2D.mk 400 200) (Vector2D.mk 2 0))
                (Vector2D.mk 500 200) COLOR_BALL_LEFT
                (Some (Vector2D.mk (-2) 0)) demo_runtime_next
              = Ok (Some ball, s', rt')).
  { unfold Simulation.spawn_ball. rewrite float_div_ok by lra. cbn [bind].
    rewrite O by (unfold MIN_RADIUS, MAX_RADIUS; simpl; lra).
    destruct (Ball.create_random _ _ _ _) as [b r] eqn:C.
    assert (Rb : Ball.radius b <= 30).
    { apply (f_equal fst) in C. simpl in C. subst b. simpl.
      unfold MIN_RADIUS, MAX_RADIUS. lra. }
    rewrite (O _ Rb). now eexists _, _, _. }
  destruct E as (ball & s' & rt' & E).
  exists ball, s', rt'. split; [exact E|].
  destruct (spawn_ball_no_overlap _ _ _ _ _ _ _ _ R E) as (P & W & B & F).
  split; [exact P|]. split; [exact W|]. split; [exact B|].
  inversion F as [|? ? Hd _]; subst. exact Hd.
Defined.

(** X21. [ball_at] returns the first ball, in insertion order, whose disc
    contains the position, and nothing exactly when no ball contains it. *)
Theorem ball_at_first s pos :
  match Simulation.ball_at s pos with
  | Some b =>
      exists before after,
        Simulation.balls s = before ++ b :: after /\ contains pos b /\
        Forall (fun x => ~ contains pos x) before
  | None => Forall (fun x => ~ contains pos x) (Simulation.balls s)
  end.
Proof.
  unfold Simulation.ball_at.
  induction (Simulation.balls s) as [|b rest IH]; simpl; [constructor|].
  destruct (Rleb _ _) eqn:E.
  - apply Rleb_true in E. exists [], rest. repeat split; [exact E | constructor].
  - apply Rleb_false in E.
    destruct (Simulation.ball_at_list pos rest) as [b'|].
    + destruct IH as (before & after & -> & C & F).
      exists (b :: before), after. repeat split; [exact C | now constructor].
    + now constructor.
Qed.

Lemma ball_at_list_app pos bs b :
  Forall (fun x => ~ contains pos x) bs -> contains pos b ->
  Simulation.ball_at_list pos (bs ++ [b]) = Some b.
Proof.
  intros H C. induction H as [|b0 rest H0 _ IH]; simpl.
  - now rewrite (proj2 (Rleb_true _ _) C).
  - now rewrite (proj2 (Rleb_false _ _) H0).
Qed.

(** X22. Spawn, then look up: after a successful [spawn_ball] from a reachable
    state, [ball_at] at the spawn position finds the new ball. *)
Theorem spawn_then_ball_at s rt position color velocity ball s' rt' :
  reachable s rt ->
  Simulation.spawn_ball s position color velocity rt
  = Ok (Some ball, s', rt') ->
  Simulation.ball_at s' position = Some ball.
Proof.
  intros Hreach Hspawn.
  destruct (reachable_bodies s rt Hreach) as (Hw & _ & _ & _ & Hf).
  destruct (create_random_spec position color velocity rt Hf)
    as (Cw & _ & Cp & _).
  destruct (spawn_ball_cases _ _ _ _ _ _ _ _ Hspawn)
    as [(Habs & _) | (Eb & _ & O & ->)]; [discriminate|].
  inversion Eb; subst ball. clear Eb.
  set (ball := fst (Ball.create_random position color velocity rt)) in *.
  destruct Cw as [[Rn _] _]. unfold MIN_RADIUS in Rn.
  unfold Simulation.ball_at; simpl.
  apply ball_at_list_app.
  - apply overlaps_existing_false in O.
    apply Forall_forall. intros b Hb C. apply O.
    apply Exists_exists. exists b. split; [exact Hb|].
    unfold contains in C. lra.
  - unfold contains. rewrite Cp. unfold Vector2D.distance_to.
    rewrite magnitude_self_sub. lra.
Qed.

Lemma spawn_then_ball_at_witness :
  exists ball s',
    Simulation.spawn_ball Simulation.init (Vector2D.mk 400 200)
      COLOR_BALL_LEFT (Some (Vector2D.mk 2 0)) demo_runtime
    = Ok (Some ball, s',
          snd (Ball.create_random (Vector2D.mk 400 200) COLOR_BALL_LEFT
                 (Some (Vector2D.mk 2 0)) demo_runtime)) /\
    Simulation.ball_at s' (Vector2D.mk 400 200) = Some ball.
Proof.
  destruct demo_spawn as (ball & s' & E).
  exists ball, s'. split; [exact E|].
  exact (spawn_then_ball_at _ _ _ _ _ _ _ _ demo_reachable E).
Defined.

Lemma list_remove_split bs ball :
  match find (fun b => Nat.eqb (Ball.oid b) (Ball.oid ball)) bs with
  | Some b =>
      exists before after,
        bs = before ++ b :: after /\
        Forall (fun x => Ball.oid x <> Ball.oid ball) before /\
        Simulation.list_remove bs ball = before ++ after
  | None =>
      existsb (fun b => Nat.eqb (Ball.oid b) (Ball.oid ball)) bs = false
  end.
Proof.
  induction bs as [|b0 rest IH]; simpl; [reflexivity|].
  destruct (Nat.eqb (Ball.oid b0) (Ball.oid ball)) eqn:E.
  - exists [], rest. repeat split. constructor.
  - apply Nat.eqb_neq in E.
    destruct (find _ rest) as [b|].
    + destruct IH as (before & after & -> & F & R).
      exists (b0 :: before), after. simpl. rewrite R.
      repeat split. now constructor.
    + exact IH.
Qed.

(** X23. [remove_ball] takes out the first ball that is the given object and
    keeps the others in order; when the object is not in the collection
    the simulation is left as it is.  Nothing but the collection changes. *)
Theorem remove_ball_first s ball :
  match find (fun b => Nat.eqb (Ball.oid b) (Ball.oid ball))
             (Simulation.balls s) with
  | Some b =>
      exists before after,
        Simulation.balls s = before ++ b :: after /\
        Forall (fun x => Ball.oid x <> Ball.oid ball) before /\
        Simulation.balls (Simulation.remove_ball s ball) = before ++ after /\
        S (length (Simulation.balls (Simulation.remove_ball s ball)))
        = length (Simulation.balls s)
  | None => Simulation.remove_ball s ball = s
  end /\
  Simulation.gravity_on (Simulation.remove_ball s ball)
  = Simulation.gravity_on s /\
  Simulation.paused (Simulation.remove_ball s ball) = Simulation.paused s /\
  Simulation.wall_glow_timer (Simulation.remove_ball s ball)
  = Simulation.wall_glow_timer s /\
  Simulation.shockwave_effects (Simulation.remove_ball s ball)
  = Simulation.shockwave_effects s.
Proof.
  pose proof (list_remove_split (Simulation.balls s) ball) as H.
  unfold Simulation.remove_ball.
  destruct (find _ (Simulation.balls s)) as [b|] eqn:F.
  - destruct H as (before & after & E & Hb & R).
    assert (X : existsb (fun b0 => Nat.eqb (Ball.oid b0) (Ball.oid ball))
                  (Simulation.balls s) = true).
    { apply existsb_exists. exists b. apply find_some in F. exact F. }
    rewrite X; simpl. split; [|auto].
    exists before, after. rewrite R, E. repeat split; try assumption.
    rewrite !length_app; simpl. lia.
  - rewrite H. auto.
Qed.

Lemma list_remove_app_fresh bs ball :
  Forall (fun x => Ball.oid x <> Ball.oid ball) bs ->
  Simulation.list_remove (bs ++ [ball]) ball = bs /\
  existsb (fun b => Nat.eqb (Ball.oid b) (Ball.oid ball)) (bs ++ [ball])
  = true.
Proof.
  induction 1 as [|b0 rest H0 _ [IH1 IH2]]; simpl.
  - rewrite Nat.eqb_refl. auto.
  - apply Nat.eqb_neq in H0. rewrite H0. simpl. now rewrite IH1, IH2.
Qed.

(** X24. Spawn, then remove: removing the ball that [spawn_ball] just returned
    gives back the collection as it was before the spawn. *)
Theorem spawn_then_remove s rt position color velocity ball s' rt' :
  reachable s rt ->
  Simulation.spawn_ball s position color velocity rt
  = Ok (Some ball, s', rt') ->
  Simulation.balls (Simulation.remove_ball s' ball) = Simulation.balls s.
Proof.
  intros Hreach Hspawn.
  destruct (reachable_bodies s rt Hreach) as (_ & _ & Hb & _ & Hf).
  destruct (create_random_spec position color velocity rt Hf)
    as (_ & _ & _ & _ & Co & _).
  destruct (spawn_ball_cases _ _ _ _ _ _ _ _ Hspawn)
    as [(Habs & _) | (Eb & _ & O & ->)]; [discriminate|].
  inversion Eb; subst ball. clear Eb.
  set (ball := fst (Ball.create_random position color velocity rt)) in *.
  assert (Fresh : Forall (fun x => Ball.oid x <> Ball.oid ball)
                         (Simulation.balls s)).
  { eapply Forall_impl; [|exact Hb]. simpl. intros b Hlt. rewrite Co. lia. }
  destruct (list_remove_app_fresh _ _ Fresh) as [R X].
  unfold Simulation.remove_ball; simpl. rewrite X. simpl. exact R.
Qed.

Lemma spawn_then_remove_witness :
  exists ball s',
    Simulation.spawn_ball Simulation.init (Vector2D.mk 400 200)
      COLOR_BALL_LEFT (Some (Vector2D.mk 2 0)) demo_runtime
    = Ok (Some ball, s',
          snd (Ball.create_random (Vector2D.mk 400 200) COLOR_BALL_LEFT
                 (Some (Vector2D.mk 2 0)) demo_runtime)) /\
    Simulation.balls (Simulation.remove_ball s' ball)
    = Simulation.balls Simulation.init.
Proof.
  destruct demo_spawn as (ball & s' & E).
  exists ball, s'. split; [exact E|].
  exact (spawn_then_remove _ _ _ _ _ _ _ _ demo_reachable E).
Defined.

End SimulationProperties.

Section EffectProperties.

Lemma age_effects_aged_by n effects :
  Simulation.age_effects (aged_by n effects) = aged_by (n + 1) effects.
Proof.
  unfold aged_by. induction effects as [|e rest IH]; simpl; [reflexivity|].
  destruct (Z.ltb_spec (Simulation.age e + n)
              Simulation.SHOCKWAVE_VISUAL_DURATION) as [H|H]; simpl.
  - replace (Simulation.age e + n + 1)%Z with (Simulation.age e + (n + 1))%Z
      by lia.
    destruct (Z.ltb (Simulation.age e + (n + 1))
                Simulation.SHOCKWAVE_VISUAL_DURATION); simpl;
      now rewrite IH.
  - destruct (Z.ltb_spec (Simulation.age e + (n + 1))
                Simulation.SHOCKWAVE_VISUAL_DURATION) as [H'|H'];
      [lia | exact IH].
Qed.

Lemma aged_by_zero effects :
  Forall live_effect effects -> aged_by 0 effects = effects.
Proof.
  unfold aged_by. induction 1 as [|e rest He _ IH]; simpl; [reflexivity|].
  destruct He as [_ Hlt].
  rewrite (proj2 (Z.ltb_lt _ _)) by lia. simpl. rewrite IH.
  destruct e as [o a]; simpl. now rewrite Z.add_0_r.
Qed.

Lemma aged_by_late n effects :
  Forall live_effect effects ->
  (Simulation.SHOCKWAVE_VISUAL_DURATION <= n)%Z -> aged_by n effects = [].
Proof.
  unfold aged_by. induction 1 as [|e rest He _ IH]; simpl; intros Hn;
    [reflexivity|].
  destruct He as [H0 _].
  rewrite (proj2 (Z.ltb_ge _ _)) by lia. now apply IH.
Qed.

Lemma update_unpaused s s' :
  Simulation.paused s = false -> Simulation.update s = Ok s' ->
  Simulation.shockwave_effects s'
  = Simulation.age_effects (Simulation.shockwave_effects s) /\
  Simulation.paused s' = false.
Proof.
  intros P. unfold Simulation.update. rewrite P.
  destruct (Simulation.update_balls _ _ _) as [[bs1 t1]|e];
    cbn [bind]; [|discriminate].
  destruct (Simulation.pairwise_collisions bs1) as [bs2|e];
    cbn [bind]; [|discriminate].
  intros E; inversion E; subst; simpl. auto.
Qed.

Lemma update_times_effects rt n :
  forall s k effects,
    reachable s rt -> Simulation.paused s = false ->
    Simulation.shockwave_effects s = aged_by k effects ->
    exists s',
      update_times n s = Ok s' /\
      Simulation.shockwave_effects s' = aged_by (k + Z.of_nat n) effects.
Proof.
  induction n as [|n IH]; intros s k effects Hreach P E.
  - exists s. simpl. split; [reflexivity|]. now rewrite Z.add_0_r.
  - destruct (reachable_invariant s rt Hreach) as (Hpos & _ & _).
    destruct (update_ok s Hpos P) as (s1 & U & _).
    destruct (update_unpaused s s1 P U) as [E1 P1].
    rewrite E, age_effects_aged_by in E1.
    destruct (IH s1 (k + 1)%Z effects (reach_update _ _ _ Hreach U) P1 E1)
      as (s' & T & E').
    exists s'. simpl. rewrite U. cbn [bind]. split; [exact T|].
    rewrite E'. f_equal. lia.
Qed.

(** X25. Shockwave visuals age by one per unpaused frame and are gone once
    they would reach [SHOCKWAVE_VISUAL_DURATION]: after [n] unpaused
    updates of a reachable state the list holds exactly the effects whose
    age plus [n] is still below the duration, each [n] older and in the
    same order; after [SHOCKWAVE_VISUAL_DURATION] updates it is empty. *)
Theorem shockwave_effects_decay s rt n :
  reachable s rt -> Simulation.paused s = false ->
  exists s',
    update_times n s = Ok s' /\
    Simulation.shockwave_effects s'
    = aged_by (Z.of_nat n) (Simulation.shockwave_effects s) /\
    ((Z.to_nat Simulation.SHOCKWAVE_VISUAL_DURATION <= n)%nat ->
     Simulation.shockwave_effects s' = []).
Proof.
  intros Hreach P.
  destruct (reachable_bodies s rt Hreach) as (_ & _ & _ & He & _).
  destruct (update_times_effects rt n s 0%Z (Simulation.shockwave_effects s)
              Hreach P) as (s' & T & E).
  { symmetry. now apply aged_by_zero. }
  exists s'. split; [exact T|]. simpl in E. split; [exact E|].
  intros Hn. rewrite E. apply aged_by_late; [exact He|].
  unfold Simulation.SHOCKWAVE_VISUAL_DURATION in *. lia.
Qed.

Lemma shockwave_effects_decay_witness :
  let s :=
    Simulation.mk [] false false 0.0
      [Simulation.mk_effect (Vector2D.mk 400 200) 0] [] in
  Simulation.apply_shockwave Simulation.init (Vector2D.mk 400 200) = Ok s /\
  exists s',
    update_times 20 s = Ok s' /\ Simulation.shockwave_effects s' = [].
Proof.
  intros s.
  assert (A : Simulation.apply_shockwave Simulation.init (Vector2D.mk 400 200)
              = Ok s) by reflexivity.
  split; [exact A|].
  destruct (shockwave_effects_decay s demo_runtime 20
              (reach_shockwave _ _ _ _ demo_reachable A) eq_refl)
    as (s' & T & _ & V).
  exists s'. split; [exact T|]. apply V.
  unfold Simulation.SHOCKWAVE_VISUAL_DURATION. simpl. lia.
Defined.

End EffectProperties.

Section EnergyProperties.
Import constants.

(** Sums over a collection, written recursively. *)
Lemma fold_left_sum (F : Ball.t -> R) bs a :
  fold_left (fun acc b => acc + F b) bs a
  = a + fold_right (fun b acc => F b + acc) 0 bs.
Proof.
  revert a; induction bs as [|b rest IH]; intros a; simpl; [ring|].
  rewrite IH. ring.
Qed.

(** X27. [total_energy] is the sum of the balls' kinetic energies; with masses
    that are positive it is never negative, and it is zero when every ball
    is at rest. *)
Theorem total_energy_nonneg s :
  positive_masses (Simulation.balls s) ->
  Simulation.total_energy s = total_kinetic_energy (Simulation.balls s) /\
  0 <= Simulation.total_energy s /\
  (Forall (fun b => Ball.velocity b = Vector2D.mk 0 0) (Simulation.balls s) ->
   Simulation.total_energy s = 0).
Proof.
  intros Hpos. split; [reflexivity|].
  unfold Simulation.total_energy. rewrite fold_left_sum, Rplus_0_l.
  induction Hpos as [|b rest Hb Hrest [IH0 IH]]; simpl.
  - split; [lra | reflexivity].
  - assert (K : 0 <= Ball.kinetic_energy b).
    { unfold Ball.kinetic_energy.
      pose proof (magnitude_sq_nonneg (Ball.velocity b)). nra. }
    split; [lra|].
    intros F. inversion F as [|? ? Fb Frest]; subst.
    apply IH in Frest. rewrite Frest.
    unfold Ball.kinetic_energy, Vector2D.magnitude_sq. rewrite Fb; simpl.
    ring.
Qed.

Lemma total_energy_nonneg_witness :
  0 <= Simulation.total_energy
         (Simulation.mk
            [Ball.mk 0 (Vector2D.mk 0 0) (Vector2D.mk 5 0) 10 1 (0, 0, 0)%Z]
            false false 0 [] []).
Proof.
  apply total_energy_nonneg. repeat constructor; simpl; lra.
Defined.

End EnergyProperties.

Section IdleCollisions.

Lemma for_each_fixed {A S} (Q : A -> Prop)
    (step : A -> S -> result S) xs s :
  (forall x, Q x -> step x s = Ok s) ->
  Forall Q xs -> for_each xs step s = Ok s.
Proof.
  intros Hstep. induction 1 as [|x rest Hx _ IH]; simpl; [reflexivity|].
  rewrite (Hstep x Hx). cbn [bind]. exact IH.
Qed.

Lemma py_range_between lo hi :
  Forall (fun i => (lo <= i < hi)%nat) (py_range lo hi).
Proof.
  unfold py_range. apply Forall_forall. intros i Hi.
  apply in_seq in Hi. lia.
Qed.

(** X28. When no two balls overlap, the collision pass of [update] returns the
    collection exactly as it was. *)
Theorem pairwise_collisions_idle bs :
  (forall i j a b,
     (i < j)%nat -> nth_error bs i = Some a -> nth_error bs j = Some b ->
     collision.detect_collision
       (Ball.position a) (Ball.radius a) (Ball.position b) (Ball.radius b)
     = false) ->
  Simulation.pairwise_collisions bs = Ok bs.
Proof.
  intros Hfree. unfold Simulation.pairwise_collisions; cbv zeta.
  apply (for_each_fixed (fun i => (0 <= i < length bs)%nat));
    [|apply py_range_between].
  intros i Hi.
  apply (for_each_fixed (fun j => (i + 1 <= j < length bs)%nat));
    [|apply py_range_between].
  intros j Hj. unfold Simulation.collide_pair.
  destruct (list_get_ok bs i) as (a & Ea & _); [lia|].
  destruct (list_get_ok bs j) as (b & Eb & _); [lia|].
  rewrite Ea, Eb. cbn [bind].
  apply list_get_Ok in Ea, Eb.
  now rewrite (Hfree i j a b) by (try assumption; lia).
Qed.

Lemma pairwise_collisions_idle_witness :
  let bs :=
    [Ball.mk 0 (Vector2D.mk 0 0) (Vector2D.mk 5 0) 10 1 (0, 0, 0)%Z;
     Ball.mk 1 (Vector2D.mk 25 0) (Vector2D.mk (-5) 0) 10 1 (0, 0, 0)%Z] in
  Simulation.pairwise_collisions bs = Ok bs.
Proof.
  intros bs. apply pairwise_collisions_idle.
  intros [|[|i]] [|[|[|j]]] a b Hij Ea Eb; simpl in Ea, Eb;
    try lia; try discriminate;
    try (destruct j; discriminate); try (destruct i; discriminate).
  inversion Ea; inversion Eb; subst. exact test_non_overlapping_circles.
Defined.

End IdleCollisions.

(** * The velocity setters of the ball panel *)

Section PanelProperties.

(** X29. [_set_ball_speed] always returns; the ball stays the same body at the
    same place.  A moving ball gets its normalised velocity times the
    requested speed; a ball at rest is sent along the x-axis. *)
Theorem set_ball_speed_exact ball speed :
  exists ball',
    BallPanel._set_ball_speed ball speed = Ok ball' /\
    body ball' = body ball /\
    Ball.position ball' = Ball.position ball /\
    (Ball.speed ball <> 0 ->
     exists direction,
       Vector2D.normalized (Ball.velocity ball) = Ok direction /\
       Ball.velocity ball' = Vector2D.mul direction speed) /\
    (Ball.speed ball = 0 ->
     Ball.velocity ball' = Vector2D.mul (Vector2D.mk 1.0 0.0) speed).
Proof.
  unfold BallPanel._set_ball_speed, Ball.speed.
  rewrite normalized_ok.
  destruct (Reqb (Vector2D.magnitude (Ball.velocity ball)) 0) eqn:E;
    cbn [bind].
  - apply Reqb_true in E.
    assert (Z : Vector2D.magnitude (Vector2D.mk 0 0) = 0)
      by (apply magnitude_zero; simpl; split; reflexivity).
    rewrite (proj2 (Reqb_true _ _) Z).
    eexists. split; [reflexivity|]. simpl.
    split; [reflexivity|split; [reflexivity|split]].
    + intros H; contradiction.
    + intros _. reflexivity.
  - apply Reqb_false in E.
    pose proof (unit_direction_dot (Ball.velocity ball) E) as U.
    set (d := Vector2D.mk _ _) in *.
    assert (M : Vector2D.magnitude d = 1).
    { apply magnitude_eq; [lra|]. unfold Vector2D.dot in U.
      unfold Vector2D.magnitude_sq. rewrite U. ring. }
    rewrite (proj2 (Reqb_false (Vector2D.magnitude d) 0)) by lra.
    eexists. split; [reflexivity|]. simpl.
    split; [reflexivity|split; [reflexivity|split]].
    + intros _. exists d. split; reflexivity.
    + intros H; contradiction.
Qed.

End PanelProperties.
